(** * scrapecon: the NeurIPS 2019 schedule indexer (neurips_2019.py)

  A shallow embedding of the indexer and the properties of its
  specification.

  - Python [str] values are [string]s whose characters are read as code
    points below 256; Python [int]s are [Z].
  - The program runs in a state-and-exit monad over a [World]: the
    index directory, the open writer, the cache file, and the traces of
    the requests made, the documents added and the lines printed.
  - The libraries are modelled by their contracts: [re.findall] by a
    left-to-right scanner for the two patterns of the source,
    BeautifulSoup by trees with [find], [find_next_sibling] and [text]
    (the HTML parser itself is a parameter), [requests] by a function
    from URLs to responses, and the Whoosh index by the list of its
    committed documents with a writer that buffers documents until it
    commits. *)

From Stdlib Require Import ZArith Ascii String DecimalString Sorted.
From stdpp Require Import base option list gmap strings.

Local Open Scope Z_scope.

(** ** Text primitives of the Python runtime *)

Module Text.

(** The double quote, which the patterns of the source contain. *)
Definition dquote : ascii := "034"%char.

Definition newline : string := String "010"%char "".

(** [str.isspace] on one character (code points below 256): the C0
    controls 9..13 and 28..31, the space, NEL and the no-break space. *)
Definition py_isspace (c : ascii) : bool :=
  let n := nat_of_ascii c in
  ((9 <=? n)%nat && (n <=? 13)%nat)
  || ((28 <=? n)%nat && (n <=? 32)%nat)
  || (n =? 133)%nat || (n =? 160)%nat.

Fixpoint lstrip (s : string) : string :=
  match s with
  | String c s' => if py_isspace c then lstrip s' else s
  | EmptyString => EmptyString
  end.

Fixpoint rstrip (s : string) : string :=
  match s with
  | EmptyString => EmptyString
  | String c s' =>
      match rstrip s' with
      | EmptyString => if py_isspace c then EmptyString else String c EmptyString
      | r => String c r
      end
  end.

(** [s.strip()] *)
Definition strip (s : string) : string := rstrip (lstrip s).

(** ["sep".join(ls)] *)
Definition join (sep : string) (ls : list string) : string :=
  String.concat sep ls.

(** [str(n)] for an [int], as ["%s" % n] prints it. *)
Definition str_of_int (n : Z) : string :=
  NilZero.string_of_int (Z.to_int n).

(** What reading a file in text mode does to the newlines of its text:
    a carriage return followed by a line feed, and a carriage return
    alone, are read as one line feed. *)
Fixpoint universal_newlines (s : string) : string :=
  match s with
  | EmptyString => EmptyString
  | String c s' =>
      if Ascii.eqb c "013"%char then
        String "010"%char
          match s' with
          | String d s'' =>
              if Ascii.eqb d "010"%char then universal_newlines s''
              else universal_newlines s'
          | EmptyString => EmptyString
          end
      else String c (universal_newlines s')
  end.

(** [x in s] for two strings. *)
Definition contains (s x : string) : Prop :=
  exists a b, s = a +:+ x +:+ b.

Fixpoint all_chars (f : ascii -> bool) (s : string) : bool :=
  match s with
  | EmptyString => true
  | String c s' => f c && all_chars f s'
  end.

End Text.

(** ** The two identifier patterns and [re.findall] *)

Module Re.
Import Text.

(** Both compiled patterns of the source have the shape
    [literal ( [class]+ ) literal]: a literal lead, one capture group of
    one or more characters of a class, a literal trail. *)
Record pattern := Pattern {
  lead : string;
  cls : ascii -> bool;
  trail : string
}.

Definition is_digit (c : ascii) : bool :=
  let n := nat_of_ascii c in (48 <=? n)%nat && (n <=? 57)%nat.

Definition is_digit_or_hyphen (c : ascii) : bool :=
  is_digit c || Ascii.eqb c "-"%char.

(** [s] with the literal [p] removed from its front, when it starts
    with [p]. *)
Fixpoint strip_prefix (p s : string) : option string :=
  match p with
  | EmptyString => Some s
  | String a p' =>
      match s with
      | String b s' => if Ascii.eqb a b then strip_prefix p' s' else None
      | EmptyString => None
      end
  end.

(** The longest run of class characters at the front of [s], and what
    follows it: the greedy [[class]*]. *)
Fixpoint span (f : ascii -> bool) (s : string) : string * string :=
  match s with
  | String c s' =>
      if f c then let (g, r) := span f s' in (String c g, r)
      else (EmptyString, s)
  | EmptyString => (EmptyString, EmptyString)
  end.

(** An anchored match of the pattern at the front of [s]: the captured
    group and the text after the match. *)
Definition match_here (p : pattern) (s : string) : option (string * string) :=
  match strip_prefix (lead p) s with
  | None => None
  | Some s1 =>
      match span (cls p) s1 with
      | (EmptyString, _) => None
      | (g, s2) =>
          match strip_prefix (trail p) s2 with
          | None => None
          | Some s3 => Some (g, s3)
          end
      end
  end.

(** [re.finditer]: scan left to right; on a match at the current
    position report its start and group and go on after its end,
    otherwise move one character on.  [fuel] bounds the number of scan
    steps; [S (length s)] steps always suffice (see
    [finditer_from_fuel]). *)
Fixpoint finditer_from (fuel : nat) (p : pattern) (pos : nat) (s : string)
  : list (nat * string) :=
  match fuel with
  | O => []
  | S n =>
      match match_here p s with
      | Some (g, rest) =>
          (pos, g) :: finditer_from n p (pos + (String.length s - String.length rest))%nat rest
      | None =>
          match s with
          | EmptyString => []
          | String _ s' => finditer_from n p (S pos) s'
          end
      end
  end.

Definition finditer (p : pattern) (s : string) : list (nat * string) :=
  finditer_from (S (String.length s)) p 0 s.

(** [P.findall(s)] for a pattern with one group: the group of every
    match, in scan order. *)
Definition findall (p : pattern) (s : string) : list string :=
  (finditer p s).*2.

(** The length of the text a match with group [g] covers. *)
Definition match_len (p : pattern) (g : string) : nat :=
  (String.length (lead p) + String.length g + String.length (trail p))%nat.

(** The pattern occurs in [s] at offset [i] with group [g]. *)
Definition occurs_at (p : pattern) (s : string) (i : nat) (g : string) : Prop :=
  exists a b,
    s = a +:+ (lead p +:+ g +:+ trail p) +:+ b
    /\ String.length a = i /\ g <> "" /\ all_chars (cls p) g = true.

(** Greedy matching of the group needs no backtracking when the trail
    begins with a character outside the class. *)
Definition trail_closes (p : pattern) : Prop :=
  match trail p with
  | EmptyString => False
  | String c _ => cls p c = false
  end.

(** [span] stops at a rest that does not begin with a class character. *)
Definition stops (f : ascii -> bool) (r : string) : Prop :=
  match r with
  | EmptyString => True
  | String c _ => f c = false
  end.

(** The match [y] begins at or after the end of the match [x]. *)
Definition after (p : pattern) (x y : nat * string) : Prop :=
  (x.1 + match_len p x.2 <= y.1)%nat.

(** [occ] lists the leftmost non-overlapping matches of [p] in [s] from
    offset [from] on, in text order: each entry is an occurrence at its
    position, each begins at or after the end of the one before, and every
    occurrence of the pattern begins inside a listed match (at its start,
    with the same group, or overlapping it). *)
Definition scan_of (p : pattern) (s : string) (from : nat)
    (occ : list (nat * string)) : Prop :=
  Forall (fun x => (from <= x.1)%nat /\ occurs_at p s x.1 x.2) occ
  /\ StronglySorted (after p) occ
  /\ forall j g, (from <= j)%nat -> occurs_at p s j g ->
       exists x, x ∈ occ /\ (x.1 <= j < x.1 + match_len p x.2)%nat
                 /\ (x.1 = j -> x.2 = g).

(** [ids] are the groups of the leftmost non-overlapping matches of [p]
    in [s], in text order. *)
Definition groups_in_order (p : pattern) (s : string) (ids : list string) : Prop :=
  exists occ, ids = occ.*2 /\ scan_of p s 0 occ.

End Re.

(** ** The part of BeautifulSoup the indexer uses *)

Module Bs4.
Import Text.

(** A parsed page: tags carry their name, the values of their [class]
    attribute and their contents; strings are text, or strings that
    [text] leaves out, such as comments. *)
#[local] Set Warnings "-register-all".
Inductive node :=
| NavigableString (s : string)
| Comment (s : string)
| Tag (name : string) (class_ : list string) (contents : list node).

Definition soup := list node.

Section Forest.
Context {B : Type} (f : node -> list node -> option B).

(** The first success of [f] over a list of siblings, each taken with
    the siblings that follow it. *)
Definition first_of : list node -> option B :=
  fix go (l : list node) : option B :=
    match l with
    | [] => None
    | k :: l' =>
        match f k l' with
        | Some r => Some r
        | None => go l'
        end
    end.
End Forest.

Definition concat_text (f : node -> string) : list node -> string :=
  fix go (l : list node) : string :=
    match l with
    | [] => ""
    | k :: l' => f k +:+ go l'
    end.

(** [tag.text]: the strings below the node in document order, comments
    left out. *)
Fixpoint get_text (n : node) : string :=
  match n with
  | NavigableString s => s
  | Comment _ => ""
  | Tag _ _ kids => concat_text get_text kids
  end.

(** A [class_="c"] filter accepts a tag when one of its class values is
    [c], or when the values joined by spaces are [c]. *)
Definition class_matches (c : string) (cs : list string) : bool :=
  existsb (String.eqb c) cs || String.eqb (join " " cs) c.

(** The filter [find(name, class_=...)] applies to a node: only tags
    match. *)
Definition tag_matches (name : string) (class_ : option string) (n : node) : bool :=
  match n with
  | Tag nm cs _ =>
      String.eqb nm name
      && match class_ with
         | None => true
         | Some c => class_matches c cs
         end
  | _ => false
  end.

(** The first node in document order, from [n] on and below, that the
    filter accepts, with the siblings that follow it. *)
Fixpoint find_from (m : node -> bool) (n : node) (sibs : list node)
  : option (node * list node) :=
  if m n then Some (n, sibs)
  else match n with
       | Tag _ _ kids => first_of (find_from m) kids
       | _ => None
       end.

(** [soup.find(name, class_=...)], keeping the place of the result among
    its siblings for [find_next_sibling]. *)
Definition find_with_siblings (name : string) (class_ : option string) (s : soup)
  : option (node * list node) :=
  first_of (find_from (tag_matches name class_)) s.

Definition find (name : string) (class_ : option string) (s : soup) : option node :=
  fst <$> find_with_siblings name class_ s.

(** [tag.find_next_sibling(name)] from the siblings after [tag]. *)
Definition find_next_sibling (name : string) (sibs : list node) : option node :=
  List.find (tag_matches name None) sibs.

(** Document order: every node from [n] on and below, parents before
    their contents, each with the siblings that follow it. *)
Definition flat_places {B : Type} (f : node -> list node -> list B)
  : list node -> list B :=
  fix go (l : list node) : list B :=
    match l with
    | [] => []
    | k :: l' => f k l' ++ go l'
    end.

Fixpoint places_from (n : node) (sibs : list node) : list (node * list node) :=
  (n, sibs) :: match n with
               | Tag _ _ kids => flat_places places_from kids
               | _ => []
               end.

Definition places (s : soup) : list (node * list node) :=
  flat_places places_from s.

(** [soup.descendants] *)
Definition descendants (s : soup) : list node := (places s).*1.

(** The first tag in document order that a [find] filter accepts. *)
Definition first_tag (name : string) (class_ : option string) (s : soup)
  : option node :=
  List.find (tag_matches name class_) (descendants s).

Definition is_tag (n : node) : bool :=
  match n with
  | Tag _ _ _ => true
  | _ => false
  end.

(** A page without any element. *)
Definition no_tags (s : soup) : Prop :=
  Forall (fun n => is_tag n = false) (descendants s).

End Bs4.

(** ** The indexer *)

Module Indexer.
Import Text Re Bs4.

(** A document of the index, with the fields of the schema of
    [_create_data_index]. *)
Record Document := {
  doc_url : string;
  doc_type : string;
  doc_title : string;
  doc_description : string;
  doc_subtype : string;
  doc_org : string;
  doc_content : string
}.

#[global] Instance Document_eq_dec : EqDecision Document.
Proof. solve_decision. Defined.

(** What [requests] hands back for a GET. *)
Record Response := {
  status_code : Z;
  reason : string;
  text : string
}.

(** The parsed command line; [max_events] is [None] without [-m]. *)
Record Args := {
  max_events : option Z
}.

(** The state the program reads and changes. *)
Record World := {
  (** the index in [DATA_DIR]: its committed documents, or [None] while
      the directory holds no index *)
  data_dir : option (list Document);
  (** the documents given to the open writer and not yet committed *)
  pending : list Document;
  (** the contents of the file [cache/index], when it exists *)
  cache_file : option string;
  (** the URLs requested over HTTP, oldest first *)
  requests : list string;
  (** every document handed to [add_document], oldest first *)
  added : list Document;
  (** the lines printed, oldest first *)
  console : list string
}.

(** The committed documents. *)
Definition stored (w : World) : list Document := default [] (data_dir w).

(** A computation ends with a value or with [SystemExit]; the state it
    reached is kept either way. *)
Inductive result (A : Type) :=
| Return (a : A)
| SystemExit (msg : string).
Arguments Return {A} a.
Arguments SystemExit {A} msg.

Definition M (A : Type) : Type := World -> result A * World.

Definition ret {A} (a : A) : M A := fun w => (Return a, w).

Definition bind {A B} (m : M A) (k : A -> M B) : M B :=
  fun w =>
    match m w with
    | (Return a, w') => k a w'
    | (SystemExit msg, w') => (SystemExit msg, w')
    end.

Definition raise {A} (msg : string) : M A := fun w => (SystemExit msg, w).

Declare Scope py_scope.
Delimit Scope py_scope with py.
Notation "'do' x <- m ; k" := (bind m (fun x => k))
  (at level 10, x name, m at level 100, k at level 200) : py_scope.
Local Open Scope py_scope.

(** *** Effects *)

Definition set_data (d : option (list Document)) (p : list Document) (w : World) : World :=
  {| data_dir := d; pending := p; cache_file := cache_file w;
     requests := requests w; added := added w; console := console w |}.

Definition print (line : string) : M unit := fun w =>
  (Return tt,
   {| data_dir := data_dir w; pending := pending w; cache_file := cache_file w;
      requests := requests w; added := added w;
      console := console w ++ [line] |}).

(** [pbar.write(line)] *)
Definition pbar_write (line : string) : M unit := print line.

(** [log.info(line)] under the format ["%(levelname)s: %(message)s"]. *)
Definition log_info (line : string) : M unit := print ("INFO: " +:+ line).

(** [writer.add_document] with the fields of [doc]: the document joins
    the writer's segment; no field is checked against the index. *)
Definition add_document (doc : Document) : M unit := fun w =>
  (Return tt,
   {| data_dir := data_dir w; pending := pending w ++ [doc];
      cache_file := cache_file w; requests := requests w;
      added := added w ++ [doc]; console := console w |}).

(** [writer.commit()] and [writer.cancel()].  A commit adds the
    writer's documents to the index and deletes none.  The list keeps
    them behind the documents already there; the order in which Whoosh
    iterates an index after a commit can differ, since a commit may merge
    old segments behind the new documents, so the statements about runs
    in general read the index after a commit up to permutation or as a
    set of URLs. *)
Definition commit (w : World) : World :=
  set_data (Some (stored w ++ pending w)) [] w.

Definition cancel (w : World) : World :=
  set_data (data_dir w) [] w.

(** [with data.writer() as writer: body]: a fresh writer is opened
    for the body; by the context-manager contract of Whoosh's
    [IndexWriter] it commits when the body ends normally and cancels,
    dropping the documents added to it, when an exception leaves the
    body. *)
Definition with_writer {A} (body : M A) : M A := fun w =>
  match body (set_data (data_dir w) [] w) with
  | (Return a, w') => (Return a, commit w')
  | (SystemExit msg, w') => (SystemExit msg, cancel w')
  end.

Definition INDEX_URL : string := "https://nips.cc/Conferences/2019/Schedule".

Definition EVENT_URL_PATTERN (event_id : string) : string :=
  "https://nips.cc/Conferences/2019/Schedule?showEvent=" +:+ event_id.

Definition SPEAKER_URL_PATTERN (speaker_id : string) : string :=
  "https://nips.cc/Conferences/2019/Schedule?showSpeaker=" +:+ speaker_id.

(** [EVENT_ID_P]: the text [onClick=], a double quote, [showDetail(],
    a group of one or more of [0-9], [)] and a double quote. *)
Definition EVENT_ID_P : pattern :=
  {| lead := "onClick=" +:+ String dquote "showDetail(";
     cls := is_digit;
     trail := ")" +:+ String dquote "" |}.

(** [SPEAKER_ID_P]: the text [onClick=], a double quote,
    [showSpeaker(] and a single quote, a group of one or more of [0-9-],
    a single quote, [);] and a double quote. *)
Definition SPEAKER_ID_P : pattern :=
  {| lead := "onClick=" +:+ String dquote "showSpeaker('";
     cls := is_digit_or_hyphen;
     trail := "');" +:+ String dquote "" |}.

Definition _index_event_ids (s : string) : list string := findall EVENT_ID_P s.

Definition _speaker_ids (s : string) : list string := findall SPEAKER_ID_P s.

Definition _event_url (event_id : string) : string := EVENT_URL_PATTERN event_id.

Definition _speaker_url (speaker_id : string) : string := SPEAKER_URL_PATTERN speaker_id.

(** *** Page parsing *)

(** The three event fields and the speaker's name and organisation share
    one shape: the stripped text of the first matching tag, or the empty
    string when [find] returns [None] (a tag that is found is never
    false, whatever it contains). *)
Definition landmark_text (t : option node) : string :=
  match t with
  | None => ""
  | Some t => strip (get_text t)
  end.

Definition _event_title (soup : soup) : string :=
  landmark_text (find "div" (Some "maincardBody") soup).

Definition _event_abstract (soup : soup) : string :=
  landmark_text (find "div" (Some "abstractContainer") soup).

Definition _event_type (soup : soup) : string :=
  landmark_text (find "div" (Some "pull-right maincardHeader maincardType") soup).

Definition _speaker_name (soup : soup) : string :=
  landmark_text (find "h3" None soup).

Definition _speaker_bio (soup : soup) : string :=
  match find_with_siblings "h3" None soup with
  | None => ""
  | Some (_, sibs) =>
      match find_next_sibling "div" sibs with
      | None => ""
      | Some bio => strip (get_text bio)
      end
  end.

Definition _speaker_org (soup : soup) : string :=
  landmark_text (find "h4" None soup).

(** The landmark of the speaker's bio: the first [div] among the
    siblings after the first [h3] in document order. *)
Definition bio_landmark (s : soup) : option node :=
  match List.find (fun x => tag_matches "h3" None x.1) (places s) with
  | Some (_, sibs) => List.find (tag_matches "div" None) sibs
  | None => None
  end.

(** A field holds the stripped text of its landmark, or the empty string
    when the page has no such landmark. *)
Definition field_of (landmark : option node) (v : string) : Prop :=
  match landmark with
  | Some t => v = strip (get_text t)
  | None => v = ""
  end.

(** What a computation changed: the requests and the added documents
    grew by [rs] and [ds], the cache file is the same. *)
Definition grew (w w' : World) (rs : list string) (ds : list Document) : Prop :=
  requests w' = requests w ++ rs /\ added w' = added w ++ ds
  /\ cache_file w' = cache_file w.


(** The success class of HTTP status codes, 2xx. *)
Definition success (status : Z) : Prop := 200 <= status < 300.

Section Site.

(** The HTML parser behind [bs4.BeautifulSoup(html, "html.parser")]. *)
Variable html_parser : string -> soup.

(** The site: the response to a GET of each URL.  The site answers
    every request and does not change while the program runs. *)
Variable http : string -> Response.

Definition _event_doc (url html : string) : Document :=
  let soup := html_parser html in
  let event_type := _event_type soup in
  let title := _event_title soup in
  let abstract := _event_abstract soup in
  let content := join newline ["event"; event_type; title; abstract] in
  {| doc_url := url;
     doc_type := "event";
     doc_title := title;
     doc_description := abstract;
     doc_subtype := event_type;
     doc_org := "";
     doc_content := content |}.

Definition _speaker_doc (url html : string) : Document :=
  let soup := html_parser html in
  let name := _speaker_name soup in
  let org := _speaker_org soup in
  let bio := _speaker_bio soup in
  let content := join newline ["speaker"; name; org; bio] in
  {| doc_url := url;
     doc_type := "speaker";
     doc_subtype := "";
     doc_title := name;
     doc_description := bio;
     doc_org := org;
     doc_content := content |}.

(** *** Fetching *)

Definition http_sess_get (url : string) : M Response := fun w =>
  (Return (http url),
   {| data_dir := data_dir w; pending := pending w; cache_file := cache_file w;
      requests := requests w ++ [url]; added := added w; console := console w |}).

Definition error_message (url : string) (resp : Response) : string :=
  "error reading '" +:+ url +:+ "': " +:+ reason resp
  +:+ " (" +:+ str_of_int (status_code resp) +:+ ")".

Definition _http_get (url : string) : M string :=
  do resp <- http_sess_get url;
  if negb (status_code resp =? 200) then raise (error_message url resp)
  else ret (strip (text resp)).

(** [_cached(CACHED_INDEX)]: [None] when the file does not exist;
    otherwise the file is read in text mode, which translates its
    newlines. *)
Definition _cached : M (option string) := fun w =>
  (Return (universal_newlines <$> cache_file w), w).

(** [_cache(s, CACHED_INDEX)] *)
Definition _cache (s : string) : M unit := fun w =>
  (Return tt,
   {| data_dir := data_dir w; pending := pending w; cache_file := Some s;
      requests := requests w; added := added w; console := console w |}).

(** Python truth of [html] as [_cached] returns it: [None] and the empty
    string are false. *)
Definition truthy_str (o : option string) : bool :=
  match o with
  | None | Some EmptyString => false
  | Some _ => true
  end.

Definition _get_index_html : M string :=
  do html <- _cached;
  if truthy_str html then ret (default "" html)
  else
    do html <- _http_get INDEX_URL;
    do _ <- _cache html;
    ret html.

(** *** The index *)

(** [_init_data]: open the index, creating an empty one when there is
    none. *)
Definition _init_data : M unit := fun w =>
  match data_dir w with
  | Some _ => (Return tt, w)
  | None => (Return tt, set_data (Some []) (pending w) w)
  end.

(** [_read_data_urls]: the set of the terms of the [url] field. *)
Definition _read_data_urls : M (gset string) := fun w =>
  (Return (list_to_set (doc_url <$> stored w)), w).

Fixpoint for_speaker_ids (speaker_ids : list string) : M unit :=
  match speaker_ids with
  | [] => ret tt
  | speaker_id :: rest =>
      do _ <- pbar_write ("adding speaker " +:+ speaker_id);
      let speaker_url := _speaker_url speaker_id in
      do speaker_html <- _http_get speaker_url;
      do _ <- add_document (_speaker_doc speaker_url speaker_html);
      for_speaker_ids rest
  end.

Definition _index_event (event_url : string) : M unit :=
  with_writer (
    do event_html <- _http_get event_url;
    do _ <- add_document (_event_doc event_url event_html);
    for_speaker_ids (_speaker_ids event_html)).

(** [args.max_events and indexed >= args.max_events] *)
Definition max_reached (args : Args) (indexed : Z) : bool :=
  match max_events args with
  | None => false
  | Some m => negb (m =? 0) && (indexed >=? m)
  end.

Definition max_events_str (args : Args) : string :=
  match max_events args with
  | None => "None"
  | Some m => str_of_int m
  end.

(** The loop of [_build_index] from the event ids still to visit and the
    counter [indexed]. *)
Fixpoint for_event_ids (args : Args) (existing_urls : gset string)
    (event_ids : list string) (indexed : Z) : M unit :=
  match event_ids with
  | [] => ret tt
  | event_id :: rest =>
      let url := _event_url event_id in
      if bool_decide (url ∈ existing_urls) then
        do _ <- pbar_write ("event " +:+ event_id +:+ " exists, skipping");
        for_event_ids args existing_urls rest indexed
      else
        do _ <- pbar_write ("adding event " +:+ event_id);
        do _ <- _index_event url;
        let indexed := indexed + 1 in
        if max_reached args indexed then
          log_info ("max events reached (" +:+ max_events_str args +:+ "), stopping")
        else for_event_ids args existing_urls rest indexed
  end.

Definition _build_index (args : Args) : M unit :=
  do index_html <- _get_index_html;
  do _ <- _init_data;
  do existing_urls <- _read_data_urls;
  let indexed := 0 in
  let event_ids := _index_event_ids index_html in
  for_event_ids args existing_urls event_ids indexed.

(** *** What a run reads and writes, for stating its properties *)

(** The site answers a GET of [url] with status 200. *)
Definition ok (url : string) : bool := status_code (http url) =? 200.

(** The text [_http_get] returns for [url] when the status is 200. *)
Definition page (url : string) : string := strip (text (http url)).

(** The URLs [_index_event] requests for an event, in order: the event
    page, then the page of each of its speaker ids. *)
Definition event_urls (event_url : string) : list string :=
  event_url :: (_speaker_url <$> _speaker_ids (page event_url)).

Definition speaker_doc_of (speaker_id : string) : Document :=
  _speaker_doc (_speaker_url speaker_id) (page (_speaker_url speaker_id)).

(** The documents [_index_event] adds for an event, in order: the event
    document, then one document for each of its speaker ids. *)
Definition event_docs (event_url : string) : list Document :=
  _event_doc event_url (page event_url)
  :: (speaker_doc_of <$> _speaker_ids (page event_url)).

(** The existing-URL set a run starting in [w] reads. *)
Definition snapshot (w : World) : gset string :=
  list_to_set (doc_url <$> stored w).

(** The index page a run starting in [w] works on, and the request it
    makes to get it. *)
Definition index_html (w : World) : string :=
  if truthy_str (cache_file w) then universal_newlines (default "" (cache_file w))
  else page INDEX_URL.

Definition index_requests (w : World) : list string :=
  if truthy_str (cache_file w) then [] else [INDEX_URL].

(** The event URLs of the index page that are not in the set, in page
    order, repetitions kept. *)
Definition new_event_urls (existing_urls : gset string) (event_ids : list string)
  : list string :=
  filter (fun u => u ∉ existing_urls) (_event_url <$> event_ids).

(** How many more events the loop indexes at most when its counter is
    [indexed]: no bound without [-m] or with [-m 0]; otherwise it stops
    after the first event that brings the counter to [max_events] or
    above. *)
Definition limit (args : Args) (indexed : Z) : option nat :=
  match max_events args with
  | None => None
  | Some m => if m =? 0 then None else Some (Z.to_nat (Z.max 1 (m - indexed)))
  end.

Definition take_opt {A} (o : option nat) (l : list A) : list A :=
  match o with
  | None => l
  | Some n => take n l
  end.

(** The new event URLs of the index page of a run starting in [w]. *)
Definition new_events (w : World) : list string :=
  new_event_urls (snapshot w) (_index_event_ids (index_html w)).

(** The events a run with [args] starting in [w] sets out to index. *)
Definition selected (args : Args) (w : World) : list string :=
  take_opt (limit args 0) (new_events w).

Definition all_ok (urls : list string) : Prop :=
  Forall (fun u => ok u = true) urls.

(** The requests [urls] stop at [bad], the first URL the site does not
    answer with 200, after the requests [good]. *)
Definition first_bad (urls good : list string) (bad : string) : Prop :=
  exists more, urls = good ++ bad :: more /\ all_ok good /\ ok bad = false.

Definition events_ok (us : list string) : Prop :=
  Forall (fun u => all_ok (event_urls u)) us.

(** How the loop over the events [todo] ends when it starts in [w]:
    either every fetch succeeds and all of [todo] is committed, or the
    first failing fetch ends the run, with the events before it
    committed and nothing of the event it belongs to. *)
Definition outcome (todo : list string) (w : World) (r : result unit) (w' : World)
  : Prop :=
  (r = Return tt /\ events_ok todo
   /\ stored w' = stored w ++ flat_map event_docs todo
   /\ grew w w' (flat_map event_urls todo) (flat_map event_docs todo))
  \/ (exists done u rest good bad,
        todo = done ++ u :: rest /\ events_ok done
        /\ first_bad (event_urls u) good bad
        /\ r = SystemExit (error_message bad (http bad))
        /\ stored w' = stored w ++ flat_map event_docs done
        /\ grew w w' (flat_map event_urls done ++ good ++ [bad])
             (flat_map event_docs done ++ take (length good) (event_docs u))).

(** The world a run has reached when its loop starts: the index page is
    read (and cached when it was fetched) and the index exists. *)
Definition loop_start (w w0 : World) : Prop :=
  stored w0 = stored w
  /\ requests w0 = requests w ++ index_requests w
  /\ added w0 = added w
  /\ cache_file w0 = (if truthy_str (cache_file w) then cache_file w
                      else Some (page INDEX_URL)).

End Site.

(** *** The constructor of the parsed page as a partial function *)

(** [bs4.BeautifulSoup(html, "html.parser")] raises on markup its parser
    rejects, and neither [_event_doc] nor [_speaker_doc] catches the
    exception.  Here the constructor is a partial function, [None] for
    the exception, and the document is built from the page it
    returns. *)
Definition _event_doc_raising (BeautifulSoup : string -> option soup)
    (url html : string) : option Document :=
  match BeautifulSoup html with
  | Some soup => Some (_event_doc (fun _ => soup) url html)
  | None => None
  end.

Definition _speaker_doc_raising (BeautifulSoup : string -> option soup)
    (url html : string) : option Document :=
  match BeautifulSoup html with
  | Some soup => Some (_speaker_doc (fun _ => soup) url html)
  | None => None
  end.

(** [SystemExit] or a normal return. *)
Definition exits {A} (r : result A) : Prop :=
  match r with
  | SystemExit _ => True
  | Return _ => False
  end.

End Indexer.

(** ** A small site, for examples *)

Module Examples.
Import Text Re Bs4 Indexer.

(** The markup of a link to an event and to a speaker. *)
Definition show_detail (event_id : string) : string :=
  "onClick=" +:+ String dquote "showDetail(" +:+ event_id +:+ ")"
  +:+ String dquote "".

Definition show_speaker (speaker_id : string) : string :=
  "onClick=" +:+ String dquote "showSpeaker('" +:+ speaker_id +:+ "');"
  +:+ String dquote "".

Definition response_200 (body : string) : Response :=
  {| status_code := 200; reason := "OK"; text := body |}.

Definition response_204 : Response :=
  {| status_code := 204; reason := "No Content"; text := "" |}.

Definition response_404 : Response :=
  {| status_code := 404; reason := "Not Found"; text := "" |}.

(** A schedule with the events 1 and 2, both given by speaker 9. *)
Definition site (url : string) : Response :=
  if String.eqb url INDEX_URL then response_200 (show_detail "1" +:+ show_detail "2")
  else if String.eqb url (_event_url "1") then response_200 (show_speaker "9")
  else if String.eqb url (_event_url "2") then response_200 (show_speaker "9")
  else if String.eqb url (_speaker_url "9") then response_200 "speaker 9"
  else response_404.

(** The same schedule where event 2 also lists speaker 8, whose page is
    missing. *)
Definition site_missing_speaker (url : string) : Response :=
  if String.eqb url (_event_url "2")
  then response_200 (show_speaker "9" +:+ show_speaker "8")
  else site url.


(** A parser for pages without markup: the page is one string. *)
Definition plain_parser (html : string) : soup := [NavigableString html].

Definition is_letter (c : ascii) : bool :=
  let n := nat_of_ascii c in
  ((65 <=? n)%nat && (n <=? 90)%nat) || ((97 <=? n)%nat && (n <=? 122)%nat).

(** What [html.parser] does with a text that opens a marked section and
    goes on with a character that is no letter: it raises an assertion
    error (expected name token), and the constructor of [BeautifulSoup]
    does not return.  Every other text this example constructor reads as
    [plain_parser] does. *)
Definition rejected (html : string) : bool :=
  match strip_prefix "<![" html with
  | Some (String c _) => negb (is_letter c)
  | _ => false
  end.

Definition strict_constructor (html : string) : option soup :=
  if rejected html then None else Some (plain_parser html).

Definition event_page : soup :=
  [Tag "html" []
     [Tag "div" ["pull-right"; "maincardHeader"; "maincardType"]
        [NavigableString "Oral"];
      Tag "div" ["maincardBody"] [NavigableString " Talk X "];
      Tag "div" ["abstractContainer"]
        [Tag "p" [] [NavigableString "About X"]]]].

Definition speaker_page : soup :=
  [Tag "html" []
     [Tag "h3" [] [NavigableString "Ann"];
      Tag "h4" [] [NavigableString "Org"];
      Tag "div" [] [NavigableString "Bio"]]].

Definition empty_world : World :=
  {| data_dir := None; pending := []; cache_file := None;
     requests := []; added := []; console := [] |}.

Definition no_cap : Args := {| max_events := None |}.

Definition cap (n : Z) : Args := {| max_events := Some n |}.

End Examples.

(** ** The command line: printing and searching *)

Module Cli.
Import Text Indexer.
Local Open Scope py_scope.

(** The namespace [_parse_args] returns: [-p], [-f TEXT] and [-m N]. *)
Record Namespace := {
  ns_print_docs : bool;
  ns_find : option string;
  ns_max_events : option Z
}.

(** The part of the namespace [_build_index] reads. *)
Definition build_args (args : Namespace) : Args :=
  {| max_events := ns_max_events args |}.

Section Libraries.

(** [textwrap.wrap(s, 70)] *)
Variable textwrap_wrap : string -> list string.

(** What the searcher returns for the parsed query text over the
    documents of the index, best hit first. *)
Variable whoosh_search : list Document -> string -> list Document.

Variable html_parser : string -> Bs4.soup.
Variable http : string -> Response.

Definition _indented_text_block (s : string) : string :=
  join newline ((fun line => "  " +:+ line) <$> textwrap_wrap s).

(** The loop of [_print_results], from the results still to print and
    the flag [l0], true before the first of them. *)
Fixpoint for_results (l0 : bool) (results : list Document) : M unit :=
  match results with
  | [] => ret tt
  | fields :: rest =>
      do _ <- (if negb l0 then print "---" else ret tt);
      do _ <- print ("url: " +:+ doc_url fields);
      do _ <- print ("title: " +:+ doc_title fields);
      do _ <- print ("type: " +:+ doc_type fields);
      do _ <- print ("subtype: " +:+ doc_subtype fields);
      do _ <- print ("org: " +:+ doc_org fields);
      do _ <- print "description:";
      do _ <- print (_indented_text_block (doc_description fields));
      for_results false rest
  end.

Definition _print_results (results : list Document) : M unit :=
  for_results true results.

(** [reader.iter_docs()]: the committed documents in index order. *)
Definition iter_docs : M (list Document) := fun w => (Return (stored w), w).

Definition _print_docs : M unit :=
  do _ <- _init_data;
  do results <- iter_docs;
  _print_results results.

(** [searcher.search(query, limit=None)] for the parsed [search_text]. *)
Definition searcher_search (search_text : string) : M (list Document) :=
  fun w => (Return (whoosh_search (stored w) search_text), w).

Definition _find (search_text : string) : M unit :=
  do _ <- _init_data;
  do results <- searcher_search search_text;
  _print_results results.

Definition main (args : Namespace) : M unit :=
  if ns_print_docs args then _print_docs
  else if truthy_str (ns_find args) then _find (default "" (ns_find args))
  else _build_index html_parser http (build_args args).

(** The lines [_print_results] prints for one document. *)
Definition doc_lines (fields : Document) : list string :=
  ["url: " +:+ doc_url fields;
   "title: " +:+ doc_title fields;
   "type: " +:+ doc_type fields;
   "subtype: " +:+ doc_subtype fields;
   "org: " +:+ doc_org fields;
   "description:";
   _indented_text_block (doc_description fields)].

End Libraries.

(** Blocks of lines with a divider line between consecutive blocks. *)
Fixpoint divided (blocks : list (list string)) : list string :=
  match blocks with
  | [] => []
  | [b] => b
  | b :: rest => b ++ "---" :: divided rest
  end.

(** A computation that only prints: the console grew by [lines] and
    nothing else changed. *)
Definition only_printed (w w' : World) (lines : list string) : Prop :=
  console w' = console w ++ lines
  /\ data_dir w' = data_dir w /\ pending w' = pending w
  /\ cache_file w' = cache_file w /\ requests w' = requests w
  /\ added w' = added w.

End Cli.

(** ** The shape of the documents and of a run *)

Module Shape.
Import Text Re Indexer.

(** The text does not begin with whitespace. *)
Definition starts_clean (s : string) : Prop :=
  match s with
  | EmptyString => True
  | String c _ => py_isspace c = false
  end.

(** [s.strip()] leaves [s] as it is. *)
Definition stripped (s : string) : Prop := strip s = s.

Definition event_id_ok (event_id : string) : Prop :=
  event_id <> "" /\ all_chars is_digit event_id = true.

Definition speaker_id_ok (speaker_id : string) : Prop :=
  speaker_id <> "" /\ all_chars is_digit_or_hyphen speaker_id = true.

(** An event document as [_event_doc] builds it for an extracted id. *)
Definition event_doc_ok (d : Document) : Prop :=
  doc_type d = "event" /\ doc_org d = ""
  /\ (exists event_id, event_id_ok event_id /\ doc_url d = _event_url event_id)
  /\ stripped (doc_title d) /\ stripped (doc_subtype d)
  /\ stripped (doc_description d)
  /\ doc_content d
     = join newline [doc_type d; doc_subtype d; doc_title d; doc_description d].

(** A speaker document as [_speaker_doc] builds it for an extracted id. *)
Definition speaker_doc_ok (d : Document) : Prop :=
  doc_type d = "speaker" /\ doc_subtype d = ""
  /\ (exists speaker_id, speaker_id_ok speaker_id
                         /\ doc_url d = _speaker_url speaker_id)
  /\ stripped (doc_title d) /\ stripped (doc_org d)
  /\ stripped (doc_description d)
  /\ doc_content d
     = join newline [doc_type d; doc_title d; doc_org d; doc_description d].

Definition doc_ok (d : Document) : Prop := event_doc_ok d \/ speaker_doc_ok d.

(** Links as the schedule pages write them, each after some other text,
    with [tail] after the last: the text [lead g trail] for each group. *)
Fixpoint links (p : pattern) (items : list (string * string)) (tail : string)
  : string :=
  match items with
  | [] => tail
  | (junk, g) :: rest => junk +:+ (lead p +:+ g +:+ trail p) +:+ links p rest tail
  end.

(** The text [s] has no character [c]. *)
Definition lacks (c : ascii) (s : string) : Prop :=
  all_chars (fun x => negb (Ascii.eqb x c)) s = true.

Definition CR : ascii := "013"%char.

Definition LF : ascii := "010"%char.

(** A pattern no match of which holds a carriage return or a line
    feed. *)
Definition newline_free (p : pattern) : Prop :=
  lacks CR (lead p) /\ lacks LF (lead p)
  /\ lacks CR (trail p) /\ lacks LF (trail p)
  /\ cls p CR = false /\ cls p LF = false
  /\ lead p <> "".

End Shape.

(** ** More worlds and sites, for examples *)

Module MoreExamples.
Import Text Indexer Examples Cli.
(** A site that is down: every page is missing. *)
Definition site_down (url : string) : Response := response_404.

(** A site whose index page is blank. *)
Definition site_blank (url : string) : Response := response_200 "  ".

(** The world after the index page of the example site was cached. *)
Definition cached_world : World :=
  {| data_dir := None; pending := []; cache_file := Some (page site INDEX_URL);
     requests := []; added := []; console := [] |}.

(** A wrapper that keeps a text on one line, and a searcher that returns
    the first document. *)
Definition one_line (s : string) : list string :=
  match s with
  | EmptyString => []
  | _ => [s]
  end.

Definition first_hit (docs : list Document) (search_text : string) : list Document :=
  take 1 docs.

Definition stored_world : World :=
  {| data_dir := Some [_event_doc plain_parser (_event_url "1") "";
                       _speaker_doc plain_parser (_speaker_url "9") ""];
     pending := []; cache_file := None;
     requests := []; added := []; console := [] |}.
End MoreExamples.

(** ** Facts about strings *)

Module TextFacts.
Import Text.

Lemma str_app_cons c (s t : string) : String c s +:+ t = String c (s +:+ t).
Proof. reflexivity. Qed.

Lemma str_app_nil_l (s : string) : "" +:+ s = s.
Proof. reflexivity. Qed.

Lemma str_app_nil_r (s : string) : s +:+ "" = s.
Proof. induction s as [|c s IH]; [done|]. by rewrite str_app_cons, IH. Qed.

Lemma str_app_assoc (s t u : string) : (s +:+ t) +:+ u = s +:+ t +:+ u.
Proof. induction s as [|c s IH]; [done|]. by rewrite !str_app_cons, IH. Qed.

Lemma str_length_app (s t : string) :
  String.length (s +:+ t) = (String.length s + String.length t)%nat.
Proof. induction s as [|c s IH]; [done|]. rewrite str_app_cons. simpl. by rewrite IH. Qed.

Lemma str_app_inj_length (a a' s s' : string) :
  a +:+ s = a' +:+ s' -> String.length a = String.length a' -> a = a' /\ s = s'.
Proof.
  revert a'. induction a as [|c a IH]; intros [|c' a'] Heq Hlen; try done.
  rewrite !str_app_cons in Heq. injection Heq as -> Heq. simpl in Hlen.
  destruct (IH a' Heq) as [-> ->]; [lia|done].
Qed.

Lemma all_chars_app f (s t : string) :
  all_chars f (s +:+ t) = all_chars f s && all_chars f t.
Proof.
  induction s as [|c s IH]; [done|].
  rewrite str_app_cons. simpl. rewrite IH. by rewrite andb_assoc.
Qed.

(** *** Newline translation *)

Lemma universal_newlines_nil (s : string) : universal_newlines s = "" -> s = "".
Proof.
  destruct s as [|c s]; [done|]. simpl.
  destruct (Ascii.eqb c "013"); discriminate.
Qed.

Lemma lacks_cons (c x : ascii) (s : string) :
  Shape.lacks c (String x s) <-> x <> c /\ Shape.lacks c s.
Proof.
  unfold Shape.lacks. simpl. rewrite andb_true_iff, negb_true_iff.
  by destruct (Ascii.eqb_spec x c); split; intros []; try done.
Qed.

Lemma lacks_app (c : ascii) (s t : string) :
  Shape.lacks c (s +:+ t) <-> Shape.lacks c s /\ Shape.lacks c t.
Proof. unfold Shape.lacks. by rewrite all_chars_app, andb_true_iff. Qed.

Lemma lacks_class (f : ascii -> bool) (c : ascii) (s : string) :
  f c = false -> all_chars f s = true -> Shape.lacks c s.
Proof.
  intros Hc. induction s as [|x s IH]; [done|]. simpl.
  intros [Hx Hs]%andb_true_iff. apply lacks_cons. split; [|by apply IH].
  intros ->. congruence.
Qed.

(** A text without carriage returns in front passes unchanged. *)
Lemma universal_newlines_app (a s : string) :
  Shape.lacks Shape.CR a ->
  universal_newlines (a +:+ s) = a +:+ universal_newlines s.
Proof.
  induction a as [|x a IH]; [done|].
  intros [Hx Ha]%lacks_cons. rewrite !str_app_cons. simpl.
  destruct (Ascii.eqb_spec x "013") as [->|_]; [done|]. by rewrite IH.
Qed.

(** A text without carriage returns is read back as it was written. *)
Lemma universal_newlines_id (s : string) :
  Shape.lacks Shape.CR s -> universal_newlines s = s.
Proof.
  intros H. rewrite <- (str_app_nil_r s) at 1.
  rewrite universal_newlines_app by done. apply str_app_nil_r.
Qed.

(** The text read back has no carriage return. *)
Lemma universal_newlines_lacks_CR_le (n : nat) : forall s : string,
  (String.length s <= n)%nat -> Shape.lacks Shape.CR (universal_newlines s).
Proof.
  induction n as [|n IH]; intros s Hn.
  - destruct s; [done|simpl in Hn; lia].
  - destruct s as [|c s]; [done|]. simpl in Hn. simpl.
    destruct (Ascii.eqb_spec c "013") as [->|Hc].
    + apply lacks_cons. split; [done|].
      destruct s as [|d s]; [done|]. simpl in Hn.
      destruct (Ascii.eqb d "010"); apply IH; simpl; lia.
    + apply lacks_cons. split; [done|]. apply IH. lia.
Qed.

Lemma universal_newlines_lacks_CR (s : string) :
  Shape.lacks Shape.CR (universal_newlines s).
Proof. by apply (universal_newlines_lacks_CR_le (String.length s)). Qed.

(** Reading a text back twice is reading it back once. *)
Lemma universal_newlines_idem (s : string) :
  universal_newlines (universal_newlines s) = universal_newlines s.
Proof. apply universal_newlines_id, universal_newlines_lacks_CR. Qed.

(** What stands in the translated text before its first line feed stood
    in the text as it was. *)
Lemma universal_newlines_front (a : string) : forall s r : string,
  Shape.lacks Shape.LF a ->
  universal_newlines s = a +:+ r ->
  exists rest, s = a +:+ rest /\ universal_newlines rest = r.
Proof.
  induction a as [|x a IH]; intros s r Ha H.
  - exists s. done.
  - apply lacks_cons in Ha as [Hx Ha]. rewrite str_app_cons in H.
    destruct s as [|c s]; [discriminate|]. simpl in H.
    destruct (Ascii.eqb_spec c "013") as [->|Hc].
    + injection H as H _. by subst x.
    + injection H as -> H. destruct (IH s r Ha H) as (rest & -> & Hr).
      exists rest. by rewrite str_app_cons.
Qed.

End TextFacts.

(** ** Facts about the scanner *)

Module ReFacts.
Import Text Re TextFacts.

Lemma strip_prefix_Some (p s r : string) :
  strip_prefix p s = Some r <-> s = p +:+ r.
Proof.
  revert s. induction p as [|a p IH]; intros s; simpl.
  - rewrite str_app_nil_l. split; congruence.
  - rewrite str_app_cons. destruct s as [|b s]; [split; congruence|].
    destruct (Ascii.eqb_spec a b) as [->|Hne].
    + rewrite IH. split; congruence.
    + split; congruence.
Qed.

Lemma strip_prefix_app (p r : string) : strip_prefix p (p +:+ r) = Some r.
Proof. by apply strip_prefix_Some. Qed.

Lemma span_split f (s : string) :
  s = (span f s).1 +:+ (span f s).2
  /\ all_chars f (span f s).1 = true /\ stops f (span f s).2.
Proof.
  induction s as [|c s (IH1 & IH2 & IH3)]; simpl; [done|].
  destruct (f c) eqn:Hc; [|done].
  destruct (span f s) as [g r]; simpl in *.
  rewrite str_app_cons, <- IH1, Hc. done.
Qed.

Lemma span_app f (g r : string) :
  all_chars f g = true -> stops f r -> span f (g +:+ r) = (g, r).
Proof.
  intros Hg Hr. induction g as [|c g IH]; simpl in *.
  - rewrite str_app_nil_l. destruct r as [|c r]; [done|]. simpl in *. by rewrite Hr.
  - apply andb_true_iff in Hg as [Hc Hg]. rewrite ?str_app_cons. simpl.
    by rewrite Hc, (IH Hg).
Qed.

Lemma match_here_sound p (s g rest : string) :
  match_here p s = Some (g, rest) ->
  s = (lead p +:+ g +:+ trail p) +:+ rest
  /\ g <> "" /\ all_chars (cls p) g = true.
Proof.
  unfold match_here. intros H.
  destruct (strip_prefix (lead p) s) as [s1|] eqn:H1; [|done].
  apply strip_prefix_Some in H1 as ->.
  destruct (span_split (cls p) s1) as (Hs & Hall & _).
  destruct (span (cls p) s1) as [g' s2]; simpl in *.
  destruct g' as [|c g']; [done|].
  destruct (strip_prefix (trail p) s2) as [s3|] eqn:H3; [|done].
  apply strip_prefix_Some in H3 as ->.
  injection H as <- <-. rewrite Hs, !str_app_assoc. done.
Qed.

Lemma stops_trail p (b : string) : trail_closes p -> stops (cls p) (trail p +:+ b).
Proof.
  unfold trail_closes. destruct (trail p) as [|c t]; [done|]. by rewrite str_app_cons.
Qed.

Lemma match_here_complete p (g b : string) :
  trail_closes p -> g <> "" -> all_chars (cls p) g = true ->
  match_here p ((lead p +:+ g +:+ trail p) +:+ b) = Some (g, b).
Proof.
  intros Hp Hne Hall. unfold match_here.
  rewrite !str_app_assoc, strip_prefix_app.
  rewrite (span_app _ g (trail p +:+ b) Hall (stops_trail p b Hp)).
  destruct g as [|c g]; [done|]. by rewrite strip_prefix_app.
Qed.

Lemma match_len_pos p (g : string) : g <> "" -> (0 < match_len p g)%nat.
Proof. unfold match_len. destruct g; [done|]. simpl. lia. Qed.

Lemma finditer_from_scan p (Hp : trail_closes p) (fuel : nat) :
  forall a s : string,
    (String.length s < fuel)%nat ->
    scan_of p (a +:+ s) (String.length a) (finditer_from fuel p (String.length a) s).
Proof.
  induction fuel as [|n IH]; intros a s Hlen; [lia|]. simpl.
  destruct (match_here p s) as [[g rest]|] eqn:Hm.
  - destruct (match_here_sound _ _ _ _ Hm) as (Hs & Hne & Hall).
    set (m := lead p +:+ g +:+ trail p) in *.
    assert (Hml : String.length m = match_len p g).
    { unfold m, match_len. rewrite !str_length_app. lia. }
    assert (Hpos : (String.length a + (String.length s - String.length rest)
                    = String.length (a +:+ m))%nat).
    { rewrite Hs, !str_length_app. lia. }
    rewrite Hpos.
    assert (Hrest : (String.length rest < n)%nat).
    { pose proof (match_len_pos p g Hne). rewrite Hs, str_length_app in Hlen. lia. }
    assert (Has : a +:+ s = (a +:+ m) +:+ rest) by (by rewrite Hs, !str_app_assoc).
    destruct (IH (a +:+ m) rest Hrest) as (IH1 & IH2 & IH3).
    rewrite <- Has in *.
    assert (Hocc : occurs_at p (a +:+ s) (String.length a) g).
    { exists a, rest. split_and!; [|done..]. rewrite Has. unfold m. by rewrite !str_app_assoc. }
    split; [|split].
    + constructor; [done|].
      eapply Forall_impl; [exact IH1|]. intros x [Hx ?]. split; [|done].
      rewrite str_length_app in Hx. lia.
    + constructor; [done|].
      eapply Forall_impl; [exact IH1|]. intros x [Hx ?]. unfold after. simpl.
      rewrite str_length_app in Hx. lia.
    + intros j g0 Hj Hoc.
      destruct (decide (j < String.length (a +:+ m))%nat) as [Hlt|Hge].
      * exists (String.length a, g). split; [left|]. simpl.
        rewrite str_length_app in Hlt. split; [lia|].
        intros Hj'. destruct Hoc as (a0 & b0 & Heq & Hla & Hne0 & Hall0).
        pose proof (match_here_complete p g0 b0 Hp Hne0 Hall0) as Hc.
        apply str_app_inj_length in Heq as [_ Heq]; [|lia].
        rewrite <- Heq, Hm in Hc. congruence.
      * destruct (IH3 j g0 ltac:(lia) Hoc) as (x & Hx & Hr).
        exists x. split; [by right|done].
  - destruct s as [|c s].
    + split; [constructor|split; [constructor|]].
      intros j g Hj (a0 & b0 & Heq & Hla & Hne & Hall).
      exfalso. apply (f_equal String.length) in Heq.
      pose proof (match_len_pos p g Hne). unfold match_len in *.
      rewrite !str_length_app in Heq. simpl in Heq. lia.
    + assert (Has : a +:+ String c s = (a +:+ String c "") +:+ s).
      { by rewrite str_app_assoc. }
      assert (Hl : S (String.length a) = String.length (a +:+ String c "")).
      { rewrite str_length_app. simpl. lia. }
      rewrite Hl. simpl in Hlen.
      destruct (IH (a +:+ String c "") s ltac:(lia)) as (IH1 & IH2 & IH3).
      rewrite <- Has in *.
      split; [|split; [done|]].
      * eapply Forall_impl; [exact IH1|]. intros x [Hx ?]. split; [lia|done].
      * intros j g Hj Hoc.
        destruct (decide (j = String.length a)) as [->|Hne'].
        { exfalso. destruct Hoc as (a0 & b0 & Heq & Hla & Hne & Hall).
          pose proof (match_here_complete p g b0 Hp Hne Hall) as Hc.
          apply str_app_inj_length in Heq as [_ Heq]; [|lia].
          rewrite <- Heq, Hm in Hc. done. }
        apply IH3; [lia|done].
Qed.

Lemma finditer_scan p (s : string) :
  trail_closes p -> scan_of p s 0 (finditer p s).
Proof.
  intros Hp. apply (finditer_from_scan p Hp (S (String.length s)) "" s). lia.
Qed.

(** The fuel of [finditer] is enough: more of it changes nothing. *)
Lemma finditer_from_fuel p (n m : nat) : forall (pos : nat) (s : string),
  (String.length s < n)%nat -> (String.length s < m)%nat ->
  finditer_from n p pos s = finditer_from m p pos s.
Proof.
  revert m. induction n as [|n IH]; intros [|m] pos s Hn Hm; try lia. simpl.
  destruct (match_here p s) as [[g rest]|] eqn:Hmh.
  - destruct (match_here_sound _ _ _ _ Hmh) as (Hs & Hne & _).
    pose proof (match_len_pos p g Hne) as Hp. unfold match_len in Hp.
    f_equal. apply IH; rewrite Hs, !str_length_app in *; lia.
  - destruct s as [|c s]; [done|]. simpl in *. apply IH; lia.
Qed.

Lemma findall_groups p (s : string) :
  trail_closes p -> groups_in_order p s (findall p s).
Proof. intros Hp. exists (finditer p s). split; [done|by apply finditer_scan]. Qed.

Lemma findall_nil_iff p (s : string) :
  trail_closes p ->
  findall p s = [] <-> forall i g, ~ occurs_at p s i g.
Proof.
  intros Hp. destruct (finditer_scan p s Hp) as (Hocc & _ & Hcov).
  unfold findall. split.
  - intros Hnil i g Hig. apply fmap_nil_inv in Hnil.
    destruct (Hcov i g ltac:(lia) Hig) as (x & Hx & _).
    rewrite Hnil in Hx. by apply elem_of_nil in Hx.
  - intros Hnone. destruct (finditer p s) as [|[i g] occ]; [done|].
    inversion Hocc as [|? ? [_ Hig] _]; subst. by destruct (Hnone i g).
Qed.

Lemma finditer_more_fuel p (s : string) (n : nat) :
  finditer_from (S (String.length s) + n) p 0 s = finditer p s.
Proof. apply finditer_from_fuel; lia. Qed.

(** *** The scan, step by step *)

Lemma finditer_from_groups_pos p (fuel : nat) : forall (pos pos' : nat) (s : string),
  (finditer_from fuel p pos s).*2 = (finditer_from fuel p pos' s).*2.
Proof.
  induction fuel as [|n IH]; intros pos pos' s; simpl; [done|].
  destruct (match_here p s) as [[g rest]|].
  - rewrite !fmap_cons. simpl. f_equal. apply IH.
  - destruct s; [done|apply IH].
Qed.

Lemma groups_fuel p (n m : nat) (pos pos' : nat) (s : string) :
  (String.length s < n)%nat -> (String.length s < m)%nat ->
  (finditer_from n p pos s).*2 = (finditer_from m p pos' s).*2.
Proof.
  intros Hn Hm. rewrite (finditer_from_fuel p n m pos s Hn Hm).
  apply finditer_from_groups_pos.
Qed.

Lemma findall_hit p (s g rest : string) :
  match_here p s = Some (g, rest) -> findall p s = g :: findall p rest.
Proof.
  intros Hm. unfold findall. unfold finditer at 1. cbn [finditer_from]. rewrite Hm.
  rewrite fmap_cons. cbn [snd]. f_equal.
  destruct (match_here_sound _ _ _ _ Hm) as (Hs & Hne & _).
  unfold finditer. apply groups_fuel; [|lia].
  pose proof (match_len_pos p g Hne) as Hp. unfold match_len in Hp.
  rewrite Hs, !str_length_app. lia.
Qed.

Lemma findall_miss p (c : ascii) (s : string) :
  match_here p (String c s) = None -> findall p (String c s) = findall p s.
Proof.
  intros Hm. unfold findall. unfold finditer at 1. cbn [finditer_from]. rewrite Hm.
  unfold finditer. apply groups_fuel; simpl; lia.
Qed.

Lemma findall_empty p : match_here p "" = None -> findall p "" = [].
Proof. intros Hm. unfold findall, finditer. cbn [finditer_from]. by rewrite Hm. Qed.

(** *** Newline translation keeps the matches *)

Lemma newline_free_match p (g : string) :
  Shape.newline_free p -> all_chars (cls p) g = true ->
  Shape.lacks Shape.CR (lead p +:+ g +:+ trail p)
  /\ Shape.lacks Shape.LF (lead p +:+ g +:+ trail p).
Proof.
  intros (H1 & H2 & H3 & H4 & H5 & H6 & _) Hg.
  rewrite !lacks_app. split_and!; try done; by eapply lacks_class.
Qed.

Lemma match_here_newlines_Some p (s g rest : string) :
  trail_closes p -> Shape.newline_free p ->
  match_here p s = Some (g, rest) ->
  match_here p (universal_newlines s) = Some (g, universal_newlines rest).
Proof.
  intros Hp Hnf Hm. destruct (match_here_sound _ _ _ _ Hm) as (-> & Hne & Hall).
  destruct (newline_free_match p g Hnf Hall) as [Hcr _].
  rewrite (universal_newlines_app _ _ Hcr). by apply match_here_complete.
Qed.

Lemma match_here_newlines_None p (s : string) :
  trail_closes p -> Shape.newline_free p ->
  match_here p s = None -> match_here p (universal_newlines s) = None.
Proof.
  intros Hp Hnf Hm.
  destruct (match_here p (universal_newlines s)) as [[g r]|] eqn:Ht; [|done].
  destruct (match_here_sound _ _ _ _ Ht) as (Hs & Hne & Hall).
  destruct (newline_free_match p g Hnf Hall) as [_ Hlf].
  destruct (universal_newlines_front _ _ _ Hlf Hs) as (rest & -> & _).
  by rewrite (match_here_complete p g rest Hp Hne Hall) in Hm.
Qed.

Lemma match_here_LF p (s : string) :
  Shape.newline_free p -> match_here p (String "010" s) = None.
Proof.
  intros (_ & H2 & _ & _ & _ & _ & Hl). unfold match_here.
  destruct (lead p) as [|c l]; [done|]. apply lacks_cons in H2 as [Hc _]. simpl.
  destruct (Ascii.eqb_spec c "010") as [->|_]; done.
Qed.

Lemma findall_universal_newlines_le p (n : nat) : forall s : string,
  trail_closes p -> Shape.newline_free p ->
  (String.length s <= n)%nat ->
  findall p (universal_newlines s) = findall p s.
Proof.
  induction n as [|n IH]; intros s Hp Hnf Hlen.
  { destruct s; [done|simpl in Hlen; lia]. }
  destruct (match_here p s) as [[g rest]|] eqn:Hm.
  - rewrite (findall_hit _ _ _ _ (match_here_newlines_Some _ _ _ _ Hp Hnf Hm)).
    rewrite (findall_hit _ _ _ _ Hm). f_equal. apply IH; [done..|].
    destruct (match_here_sound _ _ _ _ Hm) as (Hs & Hne & _).
    pose proof (match_len_pos p g Hne) as Hpos. unfold match_len in Hpos.
    rewrite Hs, !str_length_app in Hlen. lia.
  - pose proof (match_here_newlines_None _ _ Hp Hnf Hm) as Hmt.
    destruct s as [|x s]; [done|]. simpl in Hlen.
    rewrite (findall_miss _ _ _ Hm).
    cbn [universal_newlines] in Hmt |- *.
    destruct (Ascii.eqb_spec x "013") as [->|Hx].
    + rewrite (findall_miss _ _ _ (match_here_LF p _ Hnf)).
      destruct s as [|d s']; [done|].
      destruct (Ascii.eqb_spec d "010") as [->|Hd].
      * rewrite (findall_miss _ _ _ (match_here_LF p s' Hnf)).
        apply IH; [done..|]. simpl in Hlen. lia.
      * apply (IH (String d s')); [done..|]. lia.
    + rewrite (findall_miss _ _ _ Hmt). apply IH; [done..|]. lia.
Qed.

(** The ids of a page are the ids of the page read back in text mode. *)
Lemma findall_universal_newlines p (s : string) :
  trail_closes p -> Shape.newline_free p ->
  findall p (universal_newlines s) = findall p s.
Proof. intros Hp Hnf. by apply (findall_universal_newlines_le p (String.length s)). Qed.

End ReFacts.

(** ** Facts about document order *)

Module Bs4Facts.
Import Text Re Bs4 Indexer.

Lemma node_forest_ind (P : node -> Prop) :
  (forall s, P (NavigableString s)) ->
  (forall s, P (Comment s)) ->
  (forall name class_ kids, Forall P kids -> P (Tag name class_ kids)) ->
  forall n, P n.
Proof.
  intros Hs Hc Ht. fix IH 1. intros [s|s|name class_ kids].
  - apply Hs.
  - apply Hc.
  - apply Ht. induction kids as [|k kids IHk]; constructor; [apply IH|exact IHk].
Qed.

Lemma find_app_first {A} (p : A -> bool) (l1 l2 : list A) :
  List.find p (l1 ++ l2)
  = match List.find p l1 with
    | Some x => Some x
    | None => List.find p l2
    end.
Proof. induction l1 as [|x l1 IH]; simpl; [done|]. by destruct (p x). Qed.

Lemma find_fst {A B} (p : A -> bool) (l : list (A * B)) :
  List.find p l.*1 = fst <$> List.find (fun x => p x.1) l.
Proof. induction l as [|[a b] l IH]; simpl; [done|]. by destruct (p a). Qed.

Lemma find_from_places (m : node -> bool) (n : node) : forall sibs,
  find_from m n sibs = List.find (fun x => m x.1) (places_from n sibs).
Proof.
  induction n as [s|s|name class_ kids IH] using node_forest_ind; intros sibs;
    simpl; try by destruct (m _).
  destruct (m (Tag name class_ kids)); [done|].
  induction IH as [|k kids Hk _ IHkids]; simpl; [done|].
  rewrite find_app_first, <- Hk. by destruct (find_from m k kids).
Qed.

Lemma first_of_places (m : node -> bool) (s : soup) :
  first_of (find_from m) s = List.find (fun x => m x.1) (places s).
Proof.
  unfold places. induction s as [|k s IH]; simpl; [done|].
  rewrite find_app_first, <- find_from_places. by destruct (find_from m k s).
Qed.

(** [soup.find] returns the first accepted tag in document order. *)
Lemma find_first_tag name class_ (s : soup) :
  find name class_ s = first_tag name class_ s.
Proof.
  unfold find, find_with_siblings, first_tag, descendants.
  by rewrite first_of_places, find_fst.
Qed.

Lemma field_of_landmark (t : option node) : field_of t (landmark_text t).
Proof. by destruct t. Qed.

Lemma speaker_bio_landmark (s : soup) : field_of (bio_landmark s) (_speaker_bio s).
Proof.
  unfold _speaker_bio, bio_landmark, find_with_siblings, find_next_sibling.
  rewrite first_of_places.
  destruct (List.find _ (places s)) as [[h sibs]|]; [|done].
  by destruct (List.find _ sibs).
Qed.

Lemma no_tags_first_tag name class_ (s : soup) : no_tags s -> first_tag name class_ s = None.
Proof.
  unfold no_tags, first_tag. induction 1 as [|n l Hn _ IH]; simpl; [done|].
  by destruct n.
Qed.

Lemma no_tags_bio (s : soup) : no_tags s -> bio_landmark s = None.
Proof.
  unfold no_tags, bio_landmark, descendants. intros H.
  replace (List.find _ (places s)) with (@None (node * list node)); [done|].
  induction (places s) as [|[n sibs] l IH]; simpl in *; [done|].
  inversion H as [|? ? Hn Hl]; subst. destruct n; try done; by apply IH.
Qed.

End Bs4Facts.

(** ** Facts about runs *)

Module IndexerFacts.
Import Text Re Bs4 Indexer TextFacts ReFacts Bs4Facts Examples.

Lemma EVENT_ID_P_closes : trail_closes EVENT_ID_P.
Proof. reflexivity. Qed.

Lemma SPEAKER_ID_P_closes : trail_closes SPEAKER_ID_P.
Proof. reflexivity. Qed.

Lemma EVENT_ID_P_newline_free : Shape.newline_free EVENT_ID_P.
Proof. by split_and!. Qed.

Lemma SPEAKER_ID_P_newline_free : Shape.newline_free SPEAKER_ID_P.
Proof. by split_and!. Qed.

(** The event ids of a page are the event ids of the page written to
    the cache and read back. *)
Lemma index_event_ids_newlines (s : string) :
  _index_event_ids (universal_newlines s) = _index_event_ids s.
Proof.
  apply findall_universal_newlines;
    [apply EVENT_ID_P_closes|apply EVENT_ID_P_newline_free].
Qed.

(** C8: [_index_event_ids] and [_speaker_ids] return, for every text,
    the captured ids of the leftmost non-overlapping matches of their
    pattern in text order; the result is empty exactly when the pattern
    occurs nowhere; and the scan always ends within its fuel. *)
Theorem link_extractor_order (s : string) :
  groups_in_order EVENT_ID_P s (_index_event_ids s)
  /\ groups_in_order SPEAKER_ID_P s (_speaker_ids s)
  /\ (_index_event_ids s = [] <-> forall i g, ~ occurs_at EVENT_ID_P s i g)
  /\ (_speaker_ids s = [] <-> forall i g, ~ occurs_at SPEAKER_ID_P s i g)
  /\ (forall n, (finditer_from (S (String.length s) + n) EVENT_ID_P 0 s).*2
                = _index_event_ids s)
  /\ (forall n, (finditer_from (S (String.length s) + n) SPEAKER_ID_P 0 s).*2
                = _speaker_ids s).
Proof.
  unfold _index_event_ids, _speaker_ids. split_and!.
  - apply findall_groups, EVENT_ID_P_closes.
  - apply findall_groups, SPEAKER_ID_P_closes.
  - apply findall_nil_iff, EVENT_ID_P_closes.
  - apply findall_nil_iff, SPEAKER_ID_P_closes.
  - intros n. unfold findall. by rewrite finditer_more_fuel.
  - intros n. unfold findall. by rewrite finditer_more_fuel.
Qed.

Section Run.
Variable html_parser : string -> soup.
Variable http : string -> Response.

Abbreviation ok := (ok http).
Abbreviation page := (page http).
Abbreviation event_urls := (event_urls http).
Abbreviation event_docs := (event_docs html_parser http).
Abbreviation speaker_doc_of := (speaker_doc_of html_parser http).
Abbreviation all_ok := (all_ok http).
Abbreviation first_bad := (first_bad http).
Abbreviation events_ok := (events_ok http).
Abbreviation outcome := (outcome html_parser http).
Abbreviation loop_start := (loop_start http).
Abbreviation new_events := (new_events http).
Notation "'error_of' u" := (error_message u (http u)) (at level 10).

Lemma grew_refl w : grew w w [] [].
Proof. unfold grew. by rewrite !app_nil_r. Qed.

Lemma grew_trans w1 w2 w3 rs ds rs' ds' :
  grew w1 w2 rs ds -> grew w2 w3 rs' ds' -> grew w1 w3 (rs ++ rs') (ds ++ ds').
Proof.
  intros (H1 & H2 & H3) (H4 & H5 & H6). unfold grew.
  rewrite H4, H5, H6, H1, H2, H3, !app_assoc. done.
Qed.

Lemma print_run line w :
  exists w', print line w = (Return tt, w')
    /\ data_dir w' = data_dir w /\ pending w' = pending w /\ grew w w' [] [].
Proof. eexists. split; [done|]. unfold grew. simpl. by rewrite !app_nil_r. Qed.

Lemma pbar_write_run line w :
  exists w', pbar_write line w = (Return tt, w')
    /\ data_dir w' = data_dir w /\ pending w' = pending w /\ grew w w' [] [].
Proof. apply print_run. Qed.

Lemma log_info_run line w :
  exists w', log_info line w = (Return tt, w')
    /\ data_dir w' = data_dir w /\ pending w' = pending w /\ grew w w' [] [].
Proof. apply print_run. Qed.

Lemma http_get_ok url w :
  ok url = true ->
  exists w', _http_get http url w = (Return (page url), w')
    /\ data_dir w' = data_dir w /\ pending w' = pending w /\ grew w w' [url] [].
Proof.
  intros Hok. unfold Indexer.ok in Hok.
  unfold _http_get, bind, http_sess_get. rewrite Hok. simpl.
  eexists. split; [done|]. unfold grew. simpl. by rewrite !app_nil_r.
Qed.

Lemma http_get_fail url w :
  ok url = false ->
  exists w', _http_get http url w = (SystemExit (error_of url), w')
    /\ data_dir w' = data_dir w /\ pending w' = pending w /\ grew w w' [url] [].
Proof.
  intros Hok. unfold Indexer.ok in Hok.
  unfold _http_get, bind, http_sess_get. rewrite Hok. simpl.
  eexists. split; [done|]. unfold grew. simpl. by rewrite !app_nil_r.
Qed.

Lemma add_document_run d w :
  exists w', add_document d w = (Return tt, w')
    /\ data_dir w' = data_dir w /\ pending w' = pending w ++ [d]
    /\ grew w w' [] [d].
Proof. eexists. split; [done|]. unfold grew. simpl. by rewrite !app_nil_r. Qed.

Ltac step H :=
  let w := fresh "w" in
  let E := fresh "E" in
  let Hd := fresh "Hd" in
  let Hp := fresh "Hp" in
  let Hg := fresh "Hg" in
  destruct H as (w & E & Hd & Hp & Hg);
  unfold bind at 1; rewrite E.

Lemma for_speaker_ids_ok ids : forall w,
  Forall (fun id => ok (_speaker_url id) = true) ids ->
  exists w', for_speaker_ids html_parser http ids w = (Return tt, w')
    /\ data_dir w' = data_dir w
    /\ pending w' = pending w ++ (speaker_doc_of <$> ids)
    /\ grew w w' (_speaker_url <$> ids) (speaker_doc_of <$> ids).
Proof.
  induction ids as [|id ids IH]; intros w Hok; simpl.
  - exists w. rewrite app_nil_r. split_and!; try done. apply grew_refl.
  - inversion Hok as [|? ? Hid Hids]; subst.
    step (pbar_write_run ("adding speaker " +:+ id) w).
    step (http_get_ok (_speaker_url id) w0 Hid).
    step (add_document_run (_speaker_doc html_parser (_speaker_url id) (page (_speaker_url id))) w1).
    destruct (IH w2 Hids) as (w' & E' & Hd' & Hp' & Hg').
    exists w'. split; [done|]. split; [congruence|]. split.
    + rewrite Hp', Hp1, Hp0, Hp. by rewrite <- app_assoc.
    + pose proof (grew_trans _ _ _ _ _ _ _ Hg
        (grew_trans _ _ _ _ _ _ _ Hg0 (grew_trans _ _ _ _ _ _ _ Hg1 Hg'))) as G.
      exact G.
Qed.

Lemma for_speaker_ids_fail ids1 id ids2 : forall w,
  Forall (fun id => ok (_speaker_url id) = true) ids1 ->
  ok (_speaker_url id) = false ->
  exists w',
    for_speaker_ids html_parser http (ids1 ++ id :: ids2) w
    = (SystemExit (error_of (_speaker_url id)), w')
    /\ data_dir w' = data_dir w
    /\ grew w w' ((_speaker_url <$> ids1) ++ [_speaker_url id]) (speaker_doc_of <$> ids1).
Proof.
  induction ids1 as [|i ids1 IH]; intros w Hok Hbad; simpl.
  - step (pbar_write_run ("adding speaker " +:+ id) w).
    step (http_get_fail (_speaker_url id) w0 Hbad).
    exists w1. split; [done|]. split; [congruence|].
    exact (grew_trans _ _ _ _ _ _ _ Hg Hg0).
  - inversion Hok as [|? ? Hid Hids]; subst.
    step (pbar_write_run ("adding speaker " +:+ i) w).
    step (http_get_ok (_speaker_url i) w0 Hid).
    step (add_document_run (_speaker_doc html_parser (_speaker_url i) (page (_speaker_url i))) w1).
    destruct (IH w2 Hids Hbad) as (w' & E' & Hd' & Hg').
    exists w'. split; [done|]. split; [congruence|].
    exact (grew_trans _ _ _ _ _ _ _ Hg
        (grew_trans _ _ _ _ _ _ _ Hg0 (grew_trans _ _ _ _ _ _ _ Hg1 Hg'))).
Qed.

Lemma all_ok_or_first_bad urls :
  all_ok urls \/ exists good bad, first_bad urls good bad.
Proof.
  induction urls as [|u urls [IH|(good & bad & more & -> & Hg & Hb)]].
  - left. constructor.
  - destruct (ok u) eqn:Hu.
    + left. by constructor.
    + right. exists [], u, urls. split_and!; [done|constructor|done].
  - destruct (ok u) eqn:Hu.
    + right. exists (u :: good), bad, more. split_and!; [done|by constructor|done].
    + right. exists [], u, (good ++ bad :: more). split_and!; [done|constructor|done].
Qed.

Lemma set_data_grew d p w : grew w (set_data d p w) [] [].
Proof. unfold grew. simpl. by rewrite !app_nil_r. Qed.

Lemma index_event_ok u w :
  all_ok (event_urls u) ->
  exists w', _index_event html_parser http u w = (Return tt, w')
    /\ data_dir w' = Some (stored w ++ event_docs u)
    /\ pending w' = []
    /\ grew w w' (event_urls u) (event_docs u).
Proof.
  intros Hok. inversion Hok as [|? ? Hu Hsp]; subst.
  apply Forall_fmap in Hsp.
  unfold _index_event, with_writer.
  pose proof (set_data_grew (data_dir w) [] w) as G0.
  set (w0 := set_data (data_dir w) [] w) in *.
  assert (D0 : data_dir w0 = data_dir w) by done.
  assert (P0 : pending w0 = []) by done.
  clearbody w0.
  step (http_get_ok u w0 Hu).
  step (add_document_run (_event_doc html_parser u (page u)) w1).
  destruct (for_speaker_ids_ok (_speaker_ids (page u)) w2 Hsp) as (w3 & E3 & Hd3 & Hp3 & Hg3).
  rewrite E3. eexists. split; [done|]. split; [|split; [done|]].
  - simpl. unfold stored. rewrite Hd3, Hd0, Hd, D0, Hp3, Hp0, Hp, P0. done.
  - pose proof (grew_trans _ _ _ _ _ _ _ G0 (grew_trans _ _ _ _ _ _ _ Hg
        (grew_trans _ _ _ _ _ _ _ Hg0 Hg3))) as G.
    pose proof (grew_trans _ _ _ _ _ _ _ G (set_data_grew (Some (stored w3 ++ pending w3)) [] w3)) as G'.
    rewrite !app_nil_r in G'. exact G'.
Qed.

Lemma index_event_fail u w good bad :
  first_bad (event_urls u) good bad ->
  exists w', _index_event html_parser http u w = (SystemExit (error_of bad), w')
    /\ data_dir w' = data_dir w
    /\ pending w' = []
    /\ grew w w' (good ++ [bad]) (take (length good) (event_docs u)).
Proof.
  intros (more & Heq & Hgood & Hbad).
  unfold _index_event, with_writer.
  pose proof (set_data_grew (data_dir w) [] w) as G0.
  set (w0 := set_data (data_dir w) [] w) in *.
  assert (D0 : data_dir w0 = data_dir w) by done.
  assert (P0 : pending w0 = []) by done.
  clearbody w0.
  destruct good as [|g good]; simpl in Heq; injection Heq as <- Heq.
  - step (http_get_fail u w0 Hbad).
    eexists. split; [done|]. split; [simpl; congruence|]. split; [done|].
    pose proof (grew_trans _ _ _ _ _ _ _ G0
      (grew_trans _ _ _ _ _ _ _ Hg (set_data_grew (data_dir w1) [] w1))) as G.
    exact G.
  - inversion Hgood as [|? ? Hu Hsp]; subst.
    apply fmap_app_inv in Heq as (ids1 & ids' & -> & Heq & Hids).
    symmetry in Heq. apply fmap_cons_inv in Heq as (id & ids2 & -> & -> & ->).
    apply Forall_fmap in Hsp.
    step (http_get_ok u w0 Hu).
    step (add_document_run (_event_doc html_parser u (page u)) w1).
    rewrite Hids.
    destruct (for_speaker_ids_fail ids1 id ids2 w2 Hsp Hbad) as (w3 & E3 & Hd3 & Hg3).
    rewrite E3. eexists. split; [done|]. split; [simpl; congruence|]. split; [done|].
    pose proof (grew_trans _ _ _ _ _ _ _ G0 (grew_trans _ _ _ _ _ _ _ Hg
        (grew_trans _ _ _ _ _ _ _ Hg0 (grew_trans _ _ _ _ _ _ _ Hg3
          (set_data_grew (data_dir w3) [] w3))))) as G.
    rewrite !app_nil_r in G. simpl in G.
    unfold Indexer.event_docs. rewrite Hids. simpl.
    rewrite length_fmap, fmap_app, take_app_length'; [exact G|by rewrite length_fmap].
Qed.

Lemma outcome_skip todo w w1 r w' :
  stored w1 = stored w -> grew w w1 [] [] ->
  outcome todo w1 r w' -> outcome todo w r w'.
Proof.
  intros Hs Hg [(-> & Hok & Hst & Hg')|(dn & u & rest & good & bad & -> & Hok & Hb & -> & Hst & Hg')].
  - left. split_and!; [done|done|congruence|].
    exact (grew_trans _ _ _ _ _ _ _ Hg Hg').
  - right. exists dn, u, rest, good, bad. split_and!; [done|done|done|done|congruence|].
    exact (grew_trans _ _ _ _ _ _ _ Hg Hg').
Qed.

Lemma outcome_cons u todo w w1 r w' :
  all_ok (event_urls u) ->
  stored w1 = stored w ++ event_docs u ->
  grew w w1 (event_urls u) (event_docs u) ->
  outcome todo w1 r w' -> outcome (u :: todo) w r w'.
Proof.
  intros Hu Hs Hg [(-> & Hok & Hst & Hg')|(dn & v & rest & good & bad & -> & Hok & Hb & -> & Hst & Hg')].
  - left. split_and!; [done|by constructor| |].
    + rewrite Hst, Hs. simpl. by rewrite <- app_assoc.
    + exact (grew_trans _ _ _ _ _ _ _ Hg Hg').
  - right. exists (u :: dn), v, rest, good, bad.
    split_and!; [done|by constructor|done|done| |].
    + rewrite Hst, Hs. simpl. by rewrite <- app_assoc.
    + pose proof (grew_trans _ _ _ _ _ _ _ Hg Hg') as G.
      cbn [flat_map]. rewrite <- !app_assoc. exact G.
Qed.

Lemma limit_reached args i :
  max_reached args (i + 1) = true -> limit args i = Some 1%nat.
Proof.
  unfold max_reached, limit. destruct (max_events args) as [m|]; [|done].
  destruct (Z.eqb_spec m 0); [done|]. simpl. intros H. f_equal. lia.
Qed.

Lemma limit_not_reached {A} args i (x : A) (l : list A) :
  max_reached args (i + 1) = false ->
  take_opt (limit args i) (x :: l) = x :: take_opt (limit args (i + 1)) l.
Proof.
  unfold max_reached, limit. destruct (max_events args) as [m|]; [|done].
  destruct (Z.eqb_spec m 0); [done|]. simpl. intros H.
  replace (Z.to_nat (Z.max 1 (m - i))) with (S (Z.to_nat (Z.max 1 (m - (i + 1))))) by lia.
  done.
Qed.

Lemma limit_first {A} args i (x : A) (l : list A) :
  exists l', take_opt (limit args i) (x :: l) = x :: l'.
Proof.
  unfold limit. destruct (max_events args) as [m|]; [|by eexists].
  destruct (m =? 0); [by eexists|]. simpl.
  destruct (Z.to_nat (Z.max 1 (m - i))) eqn:E; [lia|]. by eexists.
Qed.

Ltac step_in H R :=
  let w := fresh "w" in
  let E := fresh "E" in
  let Hd := fresh "Hd" in
  let Hp := fresh "Hp" in
  let Hg := fresh "Hg" in
  destruct H as (w & E & Hd & Hp & Hg);
  unfold bind at 1 in R; rewrite E in R.

Lemma for_event_ids_outcome args existing_urls event_ids :
  forall indexed w r w',
    for_event_ids html_parser http args existing_urls event_ids indexed w = (r, w') ->
    outcome (take_opt (limit args indexed) (new_event_urls existing_urls event_ids))
      w r w'.
Proof.
  induction event_ids as [|event_id rest IH]; intros indexed w r w' R.
  - replace (take_opt _ _) with (@nil string) by (by destruct (limit args indexed) as [[|?]|]).
    injection R as <- <-.
    left. simpl. split_and!; [done|constructor|by rewrite app_nil_r|apply grew_refl].
  - simpl in R. unfold new_event_urls. rewrite fmap_cons, filter_cons.
    fold (new_event_urls existing_urls rest).
    destruct (decide (_event_url event_id ∈ existing_urls)) as [Hin|Hnew].
    + rewrite decide_False by (intros H; apply H, Hin).
      rewrite bool_decide_eq_true_2 in R by done.
      step_in (pbar_write_run ("event " +:+ event_id +:+ " exists, skipping") w) R.
      eapply outcome_skip; [| exact Hg | eapply IH, R]. unfold stored. by rewrite Hd.
    + rewrite decide_True by done. rewrite bool_decide_eq_false_2 in R by done.
      step_in (pbar_write_run ("adding event " +:+ event_id) w) R.
      assert (Hs0 : stored w0 = stored w) by (unfold stored; by rewrite Hd).
      eapply outcome_skip; [exact Hs0 | exact Hg |].
      destruct (all_ok_or_first_bad (event_urls (_event_url event_id)))
        as [Hok|(good & bad & Hbad)].
      * destruct (index_event_ok (_event_url event_id) w0 Hok) as (w1 & E1 & Hd1 & Hp1 & Hg1).
        unfold bind at 1 in R. rewrite E1 in R.
        assert (Hs1 : stored w1 = stored w0 ++ event_docs (_event_url event_id)).
        { unfold stored at 1. by rewrite Hd1. }
        destruct (max_reached args (indexed + 1)) eqn:Hmax.
        -- rewrite (limit_reached _ _ Hmax). simpl. rewrite take_0.
           eapply outcome_cons; [done..|].
           destruct (log_info_run ("max events reached (" +:+ max_events_str args
                                   +:+ "), stopping") w1) as (w2 & E2 & Hd2 & _ & Hg2).
           rewrite E2 in R. injection R as <- <-. left.
           split_and!; [done|constructor| |done].
           unfold stored. by rewrite Hd2, app_nil_r.
        -- rewrite (limit_not_reached _ _ _ _ Hmax).
           eapply outcome_cons; [done..|]. eapply IH, R.
      * destruct (index_event_fail (_event_url event_id) w0 good bad Hbad)
          as (w1 & E1 & Hd1 & Hp1 & Hg1).
        unfold bind at 1 in R. rewrite E1 in R. injection R as <- <-.
        destruct (limit_first args indexed (_event_url event_id)
                    (new_event_urls existing_urls rest)) as (l' & ->).
        right. exists [], (_event_url event_id), l', good, bad.
        split_and!; [done|constructor|done|done| |done].
        unfold stored. by rewrite Hd1, app_nil_r.
Qed.

Abbreviation index_html := (index_html http).
Abbreviation selected := (selected http).

(** Translating the newlines of the cached text does not change its
    truth value. *)
Lemma truthy_str_newlines (o : option string) :
  truthy_str (universal_newlines <$> o) = truthy_str o.
Proof.
  destruct o as [s|]; [|done]. simpl.
  destruct (universal_newlines s) eqn:E; [|by destruct s].
  by rewrite (universal_newlines_nil _ E).
Qed.

(** A run leaves the event ids of the index page to the next run: the
    cached page is the page the run worked on, up to its newlines. *)
Lemma index_ids_after (w w' : World) :
  cache_file w' = (if truthy_str (cache_file w) then cache_file w
                   else Some (page INDEX_URL)) ->
  _index_event_ids (index_html w') = _index_event_ids (index_html w).
Proof.
  intros Hc. unfold Indexer.index_html. rewrite Hc.
  destruct (truthy_str (cache_file w)) eqn:Ht; [by rewrite Ht|].
  destruct (truthy_str (Some (page INDEX_URL))); [|done].
  apply index_event_ids_newlines.
Qed.

Lemma get_index_html_run w :
  (truthy_str (cache_file w) = false /\ ok INDEX_URL = false
   /\ exists w', _get_index_html http w = (SystemExit (error_of INDEX_URL), w')
        /\ data_dir w' = data_dir w /\ pending w' = pending w
        /\ grew w w' [INDEX_URL] [])
  \/ (all_ok (index_requests w)
      /\ exists w', _get_index_html http w = (Return (index_html w), w')
           /\ data_dir w' = data_dir w /\ pending w' = pending w
           /\ loop_start w w').
Proof.
  unfold loop_start, _get_index_html, Indexer.index_html, index_requests.
  destruct (truthy_str (cache_file w)) eqn:Ht.
  - right. split; [constructor|]. exists w. rewrite app_nil_r.
    unfold bind, _cached. rewrite truthy_str_newlines, Ht.
    by destruct (cache_file w).
  - destruct (ok INDEX_URL) eqn:Hok.
    + right. split; [by repeat constructor|].
      unfold bind at 1. unfold _cached. rewrite truthy_str_newlines, Ht.
      step (http_get_ok INDEX_URL w Hok). unfold bind, _cache, ret.
      eexists. split; [done|]. destruct Hg as (Hr & Ha & Hc). simpl.
      unfold stored. simpl. rewrite app_nil_r in Ha. by rewrite Hd.
    + left. split_and!; [done..|].
      unfold bind at 1. unfold _cached. rewrite truthy_str_newlines, Ht.
      step (http_get_fail INDEX_URL w Hok). by exists w0.
Qed.

Lemma build_index_outcome args w r w' :
  _build_index html_parser http args w = (r, w') ->
  (truthy_str (cache_file w) = false /\ ok INDEX_URL = false
   /\ r = SystemExit (error_of INDEX_URL)
   /\ data_dir w' = data_dir w /\ grew w w' [INDEX_URL] [])
  \/ (all_ok (index_requests w)
      /\ exists w0, loop_start w w0 /\ outcome (selected args w) w0 r w').
Proof.
  unfold _build_index. intros R.
  destruct (get_index_html_run w)
    as [(Ht & Hok & w0 & E & Hd & Hp & Hg)|(Hok & w0 & E & Hd & Hp & Hs)].
  - left. unfold bind at 1 in R. rewrite E in R. injection R as <- <-. done.
  - right. split; [done|].
    unfold bind at 1 in R. rewrite E in R.
    unfold bind, _init_data, _read_data_urls in R.
    destruct Hs as (Hs & Hr & Ha & Hc).
    destruct (data_dir w0) as [docs|] eqn:Hdd.
    + exists w0. split; [done|].
      apply for_event_ids_outcome in R.
      unfold Indexer.selected, Indexer.new_events, snapshot. by rewrite <- Hs.
    + apply for_event_ids_outcome in R.
      assert (Hs' : stored (set_data (Some []) (pending w0) w0) = stored w).
      { rewrite <- Hs. unfold stored. simpl. by rewrite Hdd. }
      rewrite Hs' in R.
      eexists. split; [|unfold Indexer.selected, Indexer.new_events, snapshot; exact R].
      unfold loop_start. by rewrite Hs'.
Qed.

Lemma first_bad_not_all_ok urls good bad :
  first_bad urls good bad -> all_ok urls -> False.
Proof.
  intros (more & -> & _ & Hbad) Hok. apply Forall_app in Hok as [_ Hok].
  inversion Hok; congruence.
Qed.

Lemma outcome_all_ok todo w r w' :
  outcome todo w r w' -> events_ok todo ->
  r = Return tt
  /\ stored w' = stored w ++ flat_map event_docs todo
  /\ grew w w' (flat_map event_urls todo) (flat_map event_docs todo).
Proof.
  intros [(-> & _ & Hst & Hg)|(dn & u & rest & good & bad & -> & _ & Hb & _)] Hok;
    [done|].
  apply Forall_app in Hok as [_ Hok]. inversion Hok; subst.
  by destruct (first_bad_not_all_ok _ _ _ Hb).
Qed.

(** A run whose fetches all succeed. *)
Lemma build_index_ok args w :
  all_ok (index_requests w) -> events_ok (selected args w) ->
  exists w', _build_index html_parser http args w = (Return tt, w')
    /\ stored w' = stored w ++ flat_map event_docs (selected args w)
    /\ requests w' = requests w ++ index_requests w
                      ++ flat_map event_urls (selected args w)
    /\ added w' = added w ++ flat_map event_docs (selected args w)
    /\ cache_file w' = (if truthy_str (cache_file w) then cache_file w
                        else Some (page INDEX_URL)).
Proof.
  intros Hi Hok.
  destruct (_build_index html_parser http args w) as [r w'] eqn:R.
  destruct (build_index_outcome _ _ _ _ R)
    as [(Ht & Hbad & _)|(_ & w0 & (Hs & Hr & Ha & Hc) & Ho)].
  - unfold index_requests in Hi. rewrite Ht in Hi. inversion Hi; congruence.
  - destruct (outcome_all_ok _ _ _ _ Ho Hok) as (-> & Hst & Hr' & Ha' & Hc').
    exists w'. split; [done|]. rewrite Hst, Hr', Ha', Hc', Hs, Hr, Ha, Hc.
    by rewrite <- app_assoc.
Qed.

Lemma selected_positive args w N :
  max_events args = Some N -> 0 < N ->
  selected args w = take (Z.to_nat N) (new_events w).
Proof.
  intros Hm HN. unfold Indexer.selected, limit. rewrite Hm.
  destruct (Z.eqb_spec N 0); [lia|]. simpl. f_equal. lia.
Qed.





Lemma events_ok_urls (us : list string) :
  events_ok us -> all_ok (flat_map event_urls us).
Proof.
  induction 1 as [|u us Hu _ IH]; [constructor|].
  cbn [flat_map]. by apply Forall_app.
Qed.

Lemma all_ok_no_bad (urls : list string) :
  all_ok urls -> ~ exists u, u ∈ urls /\ ok u = false.
Proof.
  intros Hok (u & Hin & Hbad). unfold all_ok in Hok.
  rewrite Forall_forall in Hok. specialize (Hok u Hin). congruence.
Qed.

Lemma event_url_stored (u : string) (us : list string) :
  u ∈ us -> u ∈ doc_url <$> flat_map event_docs us.
Proof.
  induction us as [|v us IH]; intros Hin; [by apply elem_of_nil in Hin|].
  cbn [flat_map]. rewrite fmap_app. apply elem_of_app.
  apply elem_of_cons in Hin as [->|Hin]; [left|right; by apply IH].
  unfold Indexer.event_docs. simpl. left.
Qed.

(** C2, amended: when a run ends normally and its cap left no new
    event unprocessed, a second run on the same site finds the URL of
    every event of the index page in its existing-URL set and writes no
    document. *)
Theorem second_run_writes_nothing (args1 args2 : Args) (w w1 : World) :
  _build_index html_parser http args1 w = (Return tt, w1) ->
  selected args1 w = new_events w ->
  exists w2,
    _build_index html_parser http args2 w1 = (Return tt, w2)
    /\ Forall (fun event_id => _event_url event_id ∈ snapshot w1)
         (_index_event_ids (index_html w1))
    /\ stored w2 = stored w1 /\ added w2 = added w1
    /\ requests w2 = requests w1 ++ index_requests w1.
Proof.
  intros R Hall.
  destruct (build_index_outcome _ _ _ _ R)
    as [(_ & _ & ? & _)|(Hi & w0 & (Hs & Hr & Ha & Hc) & Ho)]; [done|].
  destruct Ho as [(_ & Hok & Hst & Hr' & Ha' & Hc')|(? & ? & ? & ? & ? & _ & _ & _ & ? & _)];
    [|done].
  rewrite Hs, Hall in Hst. rewrite Hc in Hc'.
  pose proof (index_ids_after _ _ Hc') as Hhtml.
  assert (Hi1 : all_ok (index_requests w1)).
  { unfold index_requests in *. rewrite Hc'.
    destruct (truthy_str (cache_file w)) eqn:Ht; [rewrite Ht; constructor|].
    destruct (truthy_str (Some (page INDEX_URL))); [constructor|done]. }
  assert (Hknown : Forall (fun event_id => _event_url event_id ∈ snapshot w1)
                     (_index_event_ids (index_html w1))).
  { rewrite Hhtml. apply Forall_forall. intros event_id Hin.
    unfold snapshot at 1. rewrite elem_of_list_to_set, Hst, fmap_app, elem_of_app.
    destruct (decide (_event_url event_id ∈ snapshot w)) as [Hold|Hnew].
    - left. unfold snapshot in Hold. by rewrite elem_of_list_to_set in Hold.
    - right. apply event_url_stored. unfold Indexer.new_events, new_event_urls.
      apply list_elem_of_filter. split; [done|]. by apply list_elem_of_fmap_2. }
  assert (Hnone : new_events w1 = []).
  { unfold Indexer.new_events, new_event_urls. clear Hhtml.
    induction Hknown as [|i l Hin _ IH]; [done|].
    rewrite fmap_cons, filter_cons, decide_False by (intros H; by apply H). done. }
  assert (Hsel : selected args2 w1 = []).
  { unfold Indexer.selected. rewrite Hnone. by destruct (limit args2 0) as [[|?]|]. }
  destruct (build_index_ok args2 w1 Hi1) as (w2 & R2 & Hst2 & Hr2 & Ha2 & _).
  { rewrite Hsel. constructor. }
  rewrite Hsel in *. cbn [flat_map] in *. rewrite !app_nil_r in *.
  by exists w2.
Qed.

(** C6, amended: the first fetch the site does not answer with status
    200 ends the run at once with [SystemExit] (it is the run's last
    request, made once, and all requests before it succeeded); the
    documents of every event completed before it stay in the index; the
    documents [part] already added for the event in progress are dropped
    with its writer. *)
Theorem fetch_failure_aborts (args : Args) (w : World) (r : result unit) (w' : World) :
  _build_index html_parser http args w = (r, w') ->
  exists rs done part,
    requests w' = requests w ++ rs
    /\ (exits r <-> exists u, u ∈ rs /\ ok u = false)
    /\ (forall msg, r = SystemExit msg ->
          exists good bad, rs = good ++ [bad] /\ all_ok good /\ ok bad = false
                           /\ msg = error_of bad)
    /\ done `prefix_of` selected args w
    /\ (r = Return tt -> done = selected args w /\ part = [])
    /\ (part = [] \/ exists u rest, selected args w = done ++ u :: rest
                                    /\ part `prefix_of` event_docs u)
    /\ added w' = added w ++ flat_map event_docs done ++ part
    /\ stored w' ≡ₚ stored w ++ flat_map event_docs done.
Proof.
  intros R.
  destruct (build_index_outcome _ _ _ _ R)
    as [(Ht & Hbad & -> & Hd & Hr & Ha & _)|(Hi & w0 & (Hs & Hr & Ha & Hc) & Ho)].
  - exists [INDEX_URL], [], [].
    split_and!; [done| | |apply prefix_nil|done|by left|done|].
    + split; [intros _|done]. exists INDEX_URL. split; [left|done].
    + intros msg [= <-]. exists [], INDEX_URL. split_and!; [done|constructor|done|done].
    + unfold stored. by rewrite Hd, app_nil_r.
  - destruct Ho as [(-> & Hok & Hst & Hr' & Ha' & _)
                   |(dn & u & rest & good & bad & Hsel & Hok & Hb & -> & Hst & Hr' & Ha' & _)].
    + exists (index_requests w ++ flat_map event_urls (selected args w)),
        (selected args w), [].
      split_and!; [|split; [done|]|done|done|done|by left| |by rewrite Hst, Hs].
      * by rewrite Hr', Hr, <- app_assoc.
      * intros Hex. exfalso. revert Hex. apply all_ok_no_bad.
        apply Forall_app. split; [done|by apply events_ok_urls].
      * by rewrite Ha', Ha, app_nil_r.
    + exists (index_requests w ++ flat_map event_urls dn ++ good ++ [bad]), dn,
        (take (length good) (event_docs u)).
      destruct Hb as (more & Hu & Hgood & Hbad).
      split_and!; [|split; [intros _|done]| | |done| | |by rewrite Hst, Hs].
      * by rewrite Hr', Hr, <- app_assoc.
      * exists bad. split; [|done]. rewrite !elem_of_app. do 3 right. left.
      * intros msg [= <-].
        exists (index_requests w ++ flat_map event_urls dn ++ good), bad.
        split_and!; [by rewrite <- !app_assoc| |done|done].
        apply Forall_app. split; [done|]. apply Forall_app. split; [|done].
        by apply events_ok_urls.
      * rewrite Hsel. by apply prefix_app_r.
      * right. exists u, rest. split; [done|]. apply prefix_take.
      * by rewrite Ha', Ha.
Qed.

End Run.
(** *** The fetch client *)

Lemma contains_mid (a x b : string) : contains (a +:+ x +:+ b) x.
Proof. by exists a, b. Qed.

(** C7, amended: [_http_get] ends the run with [SystemExit] exactly
    when the status is not 200, with a message that contains the URL, the
    reason phrase and the status code; on status 200 it returns the
    response text with leading and trailing whitespace removed. *)
Theorem http_get_fails_unless_200 (http : string -> Response) (url : string) (w : World) :
  (_http_get http url w).1
  = (if status_code (http url) =? 200 then Return (strip (text (http url)))
     else SystemExit (error_message url (http url)))
  /\ (exits (_http_get http url w).1 <-> status_code (http url) <> 200)
  /\ contains (error_message url (http url)) url
  /\ contains (error_message url (http url)) (reason (http url))
  /\ contains (error_message url (http url)) (str_of_int (status_code (http url))).
Proof.
  assert (E : (_http_get http url w).1
              = (if status_code (http url) =? 200 then Return (strip (text (http url)))
                 else SystemExit (error_message url (http url)))).
  { unfold _http_get, bind, http_sess_get. by destruct (status_code (http url) =? 200). }
  split_and!; [exact E| | | |].
  - rewrite E. destruct (Z.eqb_spec (status_code (http url)) 200) as [->|Hne]; simpl.
    + split; [done|]. intros H. by destruct H.
    + done.
  - apply contains_mid.
  - unfold error_message. rewrite <- !str_app_assoc.
    rewrite (str_app_assoc _ (reason (http url))). rewrite !str_app_assoc.
    exists ("error reading '" +:+ url +:+ "': "),
           (" (" +:+ str_of_int (status_code (http url)) +:+ ")").
    by rewrite !str_app_assoc.
  - unfold error_message.
    exists ("error reading '" +:+ url +:+ "': " +:+ reason (http url) +:+ " ("), ")".
    by rewrite !str_app_assoc.
Qed.

(** C7 as stated fails twice: a 204 answer is a success status and yet
    ends the run, and the text returned for a 200 answer is stripped. *)
Lemma http_get_counterexample :
  success 204
  /\ exits (_http_get (fun _ => response_204) "u" empty_world).1
  /\ success 200
  /\ (_http_get (fun _ => response_200 " a ") "u" empty_world).1 = Return "a"
  /\ Return "a" <> Return (A:=string) (text (response_200 " a ")).
Proof.
  unfold success. split; [lia|]. split; [exact I|]. split; [lia|].
  split; [reflexivity|discriminate].
Qed.

(** *** The documents *)

(** C4, amended: the content of a speaker document joins, with
    newlines, the type "speaker", the title (the speaker's name), the
    organisation and the description (the bio), in this order. *)
Theorem speaker_doc_content (html_parser : string -> soup) (url html : string) :
  doc_url (_speaker_doc html_parser url html) = url
  /\ doc_type (_speaker_doc html_parser url html) = "speaker"
  /\ doc_subtype (_speaker_doc html_parser url html) = ""
  /\ doc_title (_speaker_doc html_parser url html) = _speaker_name (html_parser html)
  /\ doc_org (_speaker_doc html_parser url html) = _speaker_org (html_parser html)
  /\ doc_description (_speaker_doc html_parser url html) = _speaker_bio (html_parser html)
  /\ doc_content (_speaker_doc html_parser url html)
     = join newline [doc_type (_speaker_doc html_parser url html);
                     doc_title (_speaker_doc html_parser url html);
                     doc_org (_speaker_doc html_parser url html);
                     doc_description (_speaker_doc html_parser url html)].
Proof. by split_and!. Qed.

(** C4 as stated fails: for the speaker Ann of Org the content has the
    name before the organisation. *)
Lemma speaker_doc_content_counterexample :
  doc_content (_speaker_doc (fun _ => speaker_page) "u" "")
  = join newline ["speaker"; "Ann"; "Org"; "Bio"]
  /\ join newline
       [doc_type (_speaker_doc (fun _ => speaker_page) "u" "");
        doc_org (_speaker_doc (fun _ => speaker_page) "u" "");
        doc_title (_speaker_doc (fun _ => speaker_page) "u" "");
        doc_description (_speaker_doc (fun _ => speaker_page) "u" "")]
     = join newline ["speaker"; "Org"; "Ann"; "Bio"]
  /\ doc_content (_speaker_doc (fun _ => speaker_page) "u" "")
     <> join newline
          [doc_type (_speaker_doc (fun _ => speaker_page) "u" "");
           doc_org (_speaker_doc (fun _ => speaker_page) "u" "");
           doc_title (_speaker_doc (fun _ => speaker_page) "u" "");
           doc_description (_speaker_doc (fun _ => speaker_page) "u" "")].
Proof. split_and!; [reflexivity|reflexivity|]. vm_compute. discriminate. Qed.

(** C5: the event document built from a URL and a page has that URL,
    the type "event", no organisation, the stripped text of the title,
    type and abstract landmarks (the first matching [div] in document
    order, or the empty string) as title, subtype and description, and
    as content the four values "event", subtype, title, description
    joined by newlines; so for "Talk X", "About X" and "Oral". *)
Theorem event_doc_fields (html_parser : string -> soup) (url html : string) :
  doc_url (_event_doc html_parser url html) = url
  /\ doc_type (_event_doc html_parser url html) = "event"
  /\ doc_org (_event_doc html_parser url html) = ""
  /\ field_of (first_tag "div" (Some "maincardBody") (html_parser html))
       (doc_title (_event_doc html_parser url html))
  /\ field_of (first_tag "div" (Some "pull-right maincardHeader maincardType")
                 (html_parser html))
       (doc_subtype (_event_doc html_parser url html))
  /\ field_of (first_tag "div" (Some "abstractContainer") (html_parser html))
       (doc_description (_event_doc html_parser url html))
  /\ doc_content (_event_doc html_parser url html)
     = join newline ["event";
                     doc_subtype (_event_doc html_parser url html);
                     doc_title (_event_doc html_parser url html);
                     doc_description (_event_doc html_parser url html)]
  /\ (doc_title (_event_doc html_parser url html) = "Talk X" ->
      doc_description (_event_doc html_parser url html) = "About X" ->
      doc_subtype (_event_doc html_parser url html) = "Oral" ->
      doc_content (_event_doc html_parser url html)
      = "event" +:+ newline +:+ "Oral" +:+ newline +:+ "Talk X" +:+ newline
        +:+ "About X").
Proof.
  split_and!; try done.
  - simpl. unfold _event_title. rewrite find_first_tag. apply field_of_landmark.
  - simpl. unfold _event_type. rewrite find_first_tag. apply field_of_landmark.
  - simpl. unfold _event_abstract. rewrite find_first_tag. apply field_of_landmark.
  - intros Ht Ha Hs.
    change (doc_content (_event_doc html_parser url html))
      with (join newline ["event";
                          doc_subtype (_event_doc html_parser url html);
                          doc_title (_event_doc html_parser url html);
                          doc_description (_event_doc html_parser url html)]).
    by rewrite Ht, Ha, Hs.
Qed.

Lemma event_doc_fields_witness :
  doc_title (_event_doc (fun _ => event_page) "u" "") = "Talk X"
  /\ doc_description (_event_doc (fun _ => event_page) "u" "") = "About X"
  /\ doc_subtype (_event_doc (fun _ => event_page) "u" "") = "Oral"
  /\ doc_content (_event_doc (fun _ => event_page) "u" "")
     = "event" +:+ newline +:+ "Oral" +:+ newline +:+ "Talk X" +:+ newline
       +:+ "About X".
Proof.
  split_and!; [reflexivity..|].
  destruct (event_doc_fields (fun _ => event_page) "u" "")
    as (_ & _ & _ & _ & _ & _ & _ & H).
  apply H; reflexivity.
Defined.

(** C9, amended: the two document builders raise exactly when the
    constructor of the parsed page rejects the markup; on every page the
    constructor returns, each field is the stripped text of its landmark
    when the page has it and the empty string otherwise, so a page
    without elements gives empty fields throughout; and [_index_event],
    with a parser that returns on every page it is given, writes the
    documents it builds whatever their fields hold. *)
Theorem parse_fails_only_in_constructor :
  (forall (BeautifulSoup : string -> option soup) (url html : string),
     match BeautifulSoup html with
     | None =>
         _event_doc_raising BeautifulSoup url html = None
         /\ _speaker_doc_raising BeautifulSoup url html = None
     | Some s =>
         exists event speaker,
           _event_doc_raising BeautifulSoup url html = Some event
           /\ _speaker_doc_raising BeautifulSoup url html = Some speaker
           /\ field_of (first_tag "div" (Some "maincardBody") s) (doc_title event)
           /\ field_of (first_tag "div" (Some "pull-right maincardHeader maincardType") s)
                (doc_subtype event)
           /\ field_of (first_tag "div" (Some "abstractContainer") s)
                (doc_description event)
           /\ field_of (first_tag "h3" None s) (doc_title speaker)
           /\ field_of (first_tag "h4" None s) (doc_org speaker)
           /\ field_of (bio_landmark s) (doc_description speaker)
     end)
  /\ (forall s : soup,
     field_of (first_tag "div" (Some "maincardBody") s) (_event_title s)
     /\ field_of (first_tag "div" (Some "pull-right maincardHeader maincardType") s)
          (_event_type s)
     /\ field_of (first_tag "div" (Some "abstractContainer") s) (_event_abstract s)
     /\ field_of (first_tag "h3" None s) (_speaker_name s)
     /\ field_of (first_tag "h4" None s) (_speaker_org s)
     /\ field_of (bio_landmark s) (_speaker_bio s))
  /\ (forall s : soup, no_tags s ->
       _event_title s = "" /\ _event_type s = "" /\ _event_abstract s = ""
       /\ _speaker_name s = "" /\ _speaker_org s = "" /\ _speaker_bio s = "")
  /\ (forall html_parser http (event_url : string) (w : World),
       all_ok http (event_urls http event_url) ->
       exists w', _index_event html_parser http event_url w = (Return tt, w')
                  /\ stored w' ≡ₚ stored w ++ event_docs html_parser http event_url).
Proof.
  assert (Hfields : forall s : soup,
     field_of (first_tag "div" (Some "maincardBody") s) (_event_title s)
     /\ field_of (first_tag "div" (Some "pull-right maincardHeader maincardType") s)
          (_event_type s)
     /\ field_of (first_tag "div" (Some "abstractContainer") s) (_event_abstract s)
     /\ field_of (first_tag "h3" None s) (_speaker_name s)
     /\ field_of (first_tag "h4" None s) (_speaker_org s)
     /\ field_of (bio_landmark s) (_speaker_bio s)).
  { intros s.
    unfold _event_title, _event_type, _event_abstract, _speaker_name, _speaker_org.
    rewrite !find_first_tag.
    split_and!; try apply field_of_landmark. apply speaker_bio_landmark. }
  split_and!; [|exact Hfields| |].
  - intros BeautifulSoup url html.
    unfold _event_doc_raising, _speaker_doc_raising.
    destruct (BeautifulSoup html) as [s|]; [|done].
    destruct (Hfields s) as (H1 & H2 & H3 & H4 & H5 & H6).
    by eexists _, _.
  - intros s Hs. destruct (Hfields s) as (H1 & H2 & H3 & H4 & H5 & H6).
    rewrite !(no_tags_first_tag _ _ s Hs) in *.
    rewrite (no_tags_bio s Hs) in H6. done.
  - intros html_parser http event_url w Hok.
    destruct (index_event_ok html_parser http event_url w Hok)
      as (w' & E & Hd & _ & _).
    exists w'. split; [done|]. unfold stored at 1. by rewrite Hd.
Qed.

(** A page without elements gives a document with empty fields, and the
    document is stored. *)
Lemma parse_fails_only_in_constructor_witness :
  exists w',
    _index_event plain_parser site (_event_url "1") empty_world = (Return tt, w')
    /\ stored w'
       ≡ₚ [{| doc_url := _event_url "1"; doc_type := "event"; doc_title := "";
             doc_description := ""; doc_subtype := ""; doc_org := "";
             doc_content := join newline ["event"; ""; ""; ""] |};
          {| doc_url := _speaker_url "9"; doc_type := "speaker"; doc_title := "";
             doc_description := ""; doc_subtype := ""; doc_org := "";
             doc_content := join newline ["speaker"; ""; ""; ""] |}].
Proof.
  destruct parse_fails_only_in_constructor as (_ & _ & _ & H).
  destruct (H plain_parser site (_event_url "1") empty_world) as (w' & E & Hst).
  - vm_compute. repeat constructor.
  - exists w'. split; [exact E|]. etrans; [exact Hst|]. vm_compute. reflexivity.
Defined.

(** C9 as stated fails: on a text that opens a marked section and goes
    on with a blank the constructor of the parsed page raises, and with
    it both document builders; the second text is one that [_http_get]
    can return, since stripping leaves it as it is. *)
Lemma parse_raises_counterexample :
  strict_constructor "<![ " = None
  /\ _event_doc_raising strict_constructor (_event_url "1") "<![ " = None
  /\ _speaker_doc_raising strict_constructor (_speaker_url "9") "<![ " = None
  /\ strip "<![ x" = "<![ x"
  /\ _event_doc_raising strict_constructor (_event_url "1") "<![ x" = None
  /\ _speaker_doc_raising strict_constructor (_speaker_url "9") "<![ x" = None.
Proof. by split_and!. Qed.

(** *** Runs on the example site *)





(** The world the example site is in after one run without a cap. *)
Lemma first_run :
  exists w1,
    _build_index plain_parser site no_cap empty_world = (Return tt, w1)
    /\ doc_url <$> stored w1
       = [_event_url "1"; _speaker_url "9"; _event_url "2"; _speaker_url "9"].
Proof. eexists. split; vm_compute; reflexivity. Defined.

(** C3 fails on the code: on a schedule where two events have the same
    speaker, one run stores two documents with that speaker's URL. *)
Theorem shared_speaker_stored_twice :
  exists w1,
    _build_index plain_parser site no_cap empty_world = (Return tt, w1)
    /\ doc_url <$> stored w1
       = [_event_url "1"; _speaker_url "9"; _event_url "2"; _speaker_url "9"]
    /\ ~ NoDup (doc_url <$> stored w1).
Proof.
  destruct first_run as (w1 & R & Hst). exists w1. split_and!; [done..|].
  rewrite Hst. intros H. apply NoDup_cons in H as [_ H].
  apply NoDup_cons in H as [H _]. apply H. right. left.
Qed.

Lemma second_run_writes_nothing_witness :
  exists w1 w2,
    _build_index plain_parser site no_cap empty_world = (Return tt, w1)
    /\ _build_index plain_parser site (cap 1) w1 = (Return tt, w2)
    /\ stored w2 = stored w1
    /\ requests w2 = requests w1.
Proof.
  destruct first_run as (w1 & R & _).
  destruct (second_run_writes_nothing plain_parser site no_cap (cap 1)
              empty_world w1 R)
    as (w2 & R2 & _ & Hst & _ & Hr).
  - reflexivity.
  - exists w1, w2. split_and!; [exact R|exact R2|exact Hst|].
    rewrite Hr. clear -R. vm_compute in R. injection R as <-.
    vm_compute. reflexivity.
Defined.

(** C2 as stated fails: after a first run stopped by its cap, the second
    run finds event 2 outside its existing-URL set and writes it. *)
Lemma second_run_counterexample :
  exists w1 w2,
    _build_index plain_parser site (cap 1) empty_world = (Return tt, w1)
    /\ _build_index plain_parser site (cap 1) w1 = (Return tt, w2)
    /\ _index_event_ids (index_html site w1) = ["1"; "2"]
    /\ (_event_url "2" ∉ snapshot w1)
    /\ doc_url <$> stored w1 = [_event_url "1"; _speaker_url "9"]
    /\ doc_url <$> stored w2
       = [_event_url "1"; _speaker_url "9"; _event_url "2"; _speaker_url "9"].
Proof.
  eexists. eexists. split; [vm_compute; reflexivity|].
  split; [vm_compute; reflexivity|].
  split; [vm_compute; reflexivity|].
  split; [|split; vm_compute; reflexivity].
  intros H. apply (bool_decide_pack _) in H. vm_compute in H. exact H.
Qed.

Lemma fetch_failure_aborts_witness :
  exists msg w',
    _build_index plain_parser site_missing_speaker no_cap empty_world
    = (SystemExit msg, w')
    /\ exists rs done part,
         requests w' = requests empty_world ++ rs
         /\ (exits (SystemExit (A:=unit) msg)
             <-> exists u, u ∈ rs /\ ok site_missing_speaker u = false)
         /\ (forall msg', SystemExit (A:=unit) msg = SystemExit msg' ->
               exists good bad,
                 rs = good ++ [bad] /\ all_ok site_missing_speaker good
                 /\ ok site_missing_speaker bad = false
                 /\ msg' = error_message bad (site_missing_speaker bad))
         /\ done `prefix_of` selected site_missing_speaker no_cap empty_world
         /\ (SystemExit (A:=unit) msg = Return tt ->
              done = selected site_missing_speaker no_cap empty_world /\ part = [])
         /\ (part = []
             \/ exists u rest,
                  selected site_missing_speaker no_cap empty_world = done ++ u :: rest
                  /\ part `prefix_of` event_docs plain_parser site_missing_speaker u)
         /\ added w'
            = added empty_world
              ++ flat_map (event_docs plain_parser site_missing_speaker) done ++ part
         /\ stored w'
            ≡ₚ stored empty_world
               ++ flat_map (event_docs plain_parser site_missing_speaker) done.
Proof.
  eexists _, _. split; [vm_compute; reflexivity|].
  apply (fetch_failure_aborts plain_parser site_missing_speaker no_cap empty_world).
  vm_compute. reflexivity.
Defined.

(** C6 as stated fails: when the page of speaker 8 of event 2 is
    missing, the document of event 2 and that of its speaker 9 had been
    added and are not in the index after the run. *)
Lemma fetch_failure_counterexample :
  exists msg w',
    _build_index plain_parser site_missing_speaker no_cap empty_world
    = (SystemExit msg, w')
    /\ doc_url <$> added w'
       = [_event_url "1"; _speaker_url "9"; _event_url "2"; _speaker_url "9"]
    /\ doc_url <$> stored w' = [_event_url "1"; _speaker_url "9"]
    /\ (_event_doc plain_parser (_event_url "2")
          (page site_missing_speaker (_event_url "2")) ∈ added w')
    /\ (_event_doc plain_parser (_event_url "2")
          (page site_missing_speaker (_event_url "2")) ∉ stored w').
Proof.
  eexists. eexists. split; [vm_compute; reflexivity|].
  split; [vm_compute; reflexivity|]. split; [vm_compute; reflexivity|]. split.
  - apply (bool_decide_unpack _). vm_compute. exact I.
  - intros H. apply (bool_decide_pack _) in H. vm_compute in H. exact H.
Qed.

End IndexerFacts.

(** ** More facts about text, links and URLs *)

Module LinkFacts.
Import Text Re Bs4 Indexer TextFacts ReFacts IndexerFacts Shape Examples.

(** *** Stripping *)

Lemma lstrip_starts_clean (s : string) : starts_clean (lstrip s).
Proof.
  induction s as [|c s IH]; simpl; [done|].
  destruct (py_isspace c) eqn:Hc; [done|]. simpl. done.
Qed.

Lemma lstrip_clean (s : string) : starts_clean s -> lstrip s = s.
Proof. destruct s as [|c s]; simpl; [done|]. by intros ->. Qed.

Lemma rstrip_starts_clean (s : string) : starts_clean s -> starts_clean (rstrip s).
Proof.
  destruct s as [|c s]; simpl; [done|]. intros Hc.
  destruct (rstrip s); simpl; [by rewrite Hc|done].
Qed.

Lemma rstrip_idem (s : string) : rstrip (rstrip s) = rstrip s.
Proof.
  induction s as [|c s IH]; simpl; [done|].
  destruct (rstrip s) as [|d r] eqn:Hr.
  - destruct (py_isspace c) eqn:Hc; simpl; [done|]. by rewrite Hc.
  - simpl in *. destruct (rstrip r) as [|e r'] eqn:Hr'.
    + destruct (py_isspace d); [done|]. by injection IH as ->.
    + by rewrite IH.
Qed.

Lemma strip_idem (s : string) : strip (strip s) = strip s.
Proof.
  unfold strip.
  rewrite (lstrip_clean (rstrip (lstrip s))).
  - apply rstrip_idem.
  - apply rstrip_starts_clean, lstrip_starts_clean.
Qed.

Lemma strip_stripped (s : string) : stripped (strip s).
Proof. apply strip_idem. Qed.

Lemma stripped_empty : stripped "".
Proof. reflexivity. Qed.

(** The last character of a right-stripped text is no whitespace. *)
Lemma rstrip_ends_clean (s t : string) (c : ascii) :
  rstrip s = t +:+ String c "" -> py_isspace c = false.
Proof.
  revert t. induction s as [|d s IH]; intros t; simpl.
  - destruct t; discriminate.
  - destruct (rstrip s) as [|e r] eqn:Hr.
    + destruct (py_isspace d) eqn:Hd.
      * destruct t; discriminate.
      * destruct t as [|x t]; simpl.
        -- intros [= ->]. done.
        -- rewrite str_app_cons. intros [= _ H]. destruct t; discriminate.
    + destruct t as [|x t].
      * rewrite str_app_nil_l. discriminate.
      * rewrite str_app_cons. intros [= _ H]. by apply (IH t).
Qed.

(** *** The ids the patterns capture *)

Lemma finditer_from_groups_ok p (fuel : nat) : forall (pos : nat) (s : string),
  Forall (fun x => x.2 <> "" /\ all_chars (cls p) x.2 = true)
    (finditer_from fuel p pos s).
Proof.
  induction fuel as [|n IH]; intros pos s; simpl; [constructor|].
  destruct (match_here p s) as [[g rest]|] eqn:Hm.
  - destruct (match_here_sound _ _ _ _ Hm) as (_ & Hne & Hall).
    constructor; [done|apply IH].
  - destruct s; [constructor|apply IH].
Qed.

Lemma findall_groups_ok p (s : string) :
  Forall (fun g => g <> "" /\ all_chars (cls p) g = true) (findall p s).
Proof.
  unfold findall, finditer. apply Forall_fmap.
  apply (finditer_from_groups_ok p (S (String.length s)) 0%nat s).
Qed.

(** X1: every id [_index_event_ids] returns is a non-empty string of
    digits, and every id [_speaker_ids] returns is a non-empty string of
    digits and hyphens, whatever the page holds. *)
Theorem extracted_ids_well_formed (s : string) :
  Forall event_id_ok (_index_event_ids s)
  /\ Forall speaker_id_ok (_speaker_ids s).
Proof.
  split.
  - apply (findall_groups_ok EVENT_ID_P s).
  - apply (findall_groups_ok SPEAKER_ID_P s).
Qed.

(** *** Links read back *)

Lemma match_here_wrong_start p (c x : ascii) (l s : string) :
  lead p = String c l -> x <> c -> match_here p (String x s) = None.
Proof.
  intros Hl Hx. unfold match_here. rewrite Hl. simpl.
  destruct (Ascii.eqb_spec c x) as [->|_]; [done|done].
Qed.

Lemma match_here_empty p (c : ascii) (l : string) :
  lead p = String c l -> match_here p "" = None.
Proof. intros Hl. unfold match_here. by rewrite Hl. Qed.

Lemma groups_junk p (c : ascii) (l junk : string) :
  lead p = String c l -> lacks c junk ->
  forall (fuel pos : nat) (s : string),
    (String.length (junk +:+ s) < fuel)%nat ->
    (finditer_from fuel p pos (junk +:+ s)).*2 = (finditer_from fuel p pos s).*2.
Proof.
  intros Hl. unfold lacks.
  induction junk as [|x junk IH]; intros Hj fuel pos s Hlen; [done|].
  simpl in Hj. apply andb_true_iff in Hj as [Hx Hj].
  rewrite str_app_cons in *. simpl in Hlen.
  destruct fuel as [|n]; [lia|].
  assert (Hs : (String.length s < n)%nat) by (rewrite str_length_app in Hlen; lia).
  etransitivity; [|symmetry; apply (groups_fuel p (S n) n pos (S pos) s); lia].
  cbn [finditer_from].
  rewrite (match_here_wrong_start p c x l _ Hl).
  - apply (IH Hj n (S pos) s). lia.
  - intros ->. by rewrite Ascii.eqb_refl in Hx.
Qed.

Lemma findall_links p (c : ascii) (l : string) (items : list (string * string))
    (tail : string) :
  trail_closes p -> lead p = String c l ->
  Forall (fun it => lacks c it.1 /\ it.2 <> "" /\ all_chars (cls p) it.2 = true) items ->
  lacks c tail ->
  findall p (links p items tail) = items.*2.
Proof.
  intros Hp Hl Hitems Htail. unfold findall, finditer.
  generalize 0%nat as pos.
  induction Hitems as [|[junk g] items (Hj & Hne & Hall) _ IH]; intros pos.
  - cbn [links fmap list_fmap].
    pose proof (groups_junk p c l tail Hl Htail (S (String.length tail)) pos "") as H.
    rewrite str_app_nil_r in H. rewrite H by lia.
    cbn [finditer_from]. by rewrite (match_here_empty p c l Hl).
  - cbn [links]. simpl fst in *. simpl snd in *.
    set (rest := links p items tail) in *.
    rewrite (groups_junk p c l junk Hl Hj) by lia.
    cbn [finditer_from].
    rewrite (match_here_complete p g rest Hp Hne Hall).
    rewrite !fmap_cons. cbn [snd]. f_equal.
    etransitivity; [|apply (IH pos)]. apply groups_fuel; [|lia].
    assert (0 < String.length g)%nat by (destruct g; [done|simpl; lia]).
    rewrite !str_length_app. lia.
Qed.

(** X2: a page written as a sequence of event links (or of speaker
    links), each after some text without the letter o and with well-formed
    ids, reads back as exactly these ids in page order, repetitions
    kept. *)
Theorem ids_of_links (items : list (string * string)) (tail : string) :
  lacks "o" tail ->
  (Forall (fun it => lacks "o" it.1 /\ event_id_ok it.2) items ->
   _index_event_ids (links EVENT_ID_P items tail) = items.*2)
  /\ (Forall (fun it => lacks "o" it.1 /\ speaker_id_ok it.2) items ->
      _speaker_ids (links SPEAKER_ID_P items tail) = items.*2).
Proof.
  intros Htail. split; intros Hitems.
  - apply (findall_links EVENT_ID_P "o" _ items tail EVENT_ID_P_closes eq_refl);
      [|done].
    eapply Forall_impl; [exact Hitems|]. by intros [j g] [? [? ?]].
  - apply (findall_links SPEAKER_ID_P "o" _ items tail SPEAKER_ID_P_closes eq_refl);
      [|done].
    eapply Forall_impl; [exact Hitems|]. by intros [j g] [? [? ?]].
Qed.

Lemma ids_of_links_witness :
  _index_event_ids ("<a " +:+ show_detail "42" +:+ "> x " +:+ show_detail "7" +:+ "</a>")
  = ["42"; "7"].
Proof.
  destruct (ids_of_links [("<a ", "42"); ("> x ", "7")] "</a>") as [H _].
  - reflexivity.
  - apply H. repeat constructor; try reflexivity; discriminate.
Defined.

(** *** URLs *)

(** X3: distinct ids give distinct URLs, and no event URL is a speaker
    URL or the URL of the index page, and no speaker URL is the URL of the
    index page. *)
Theorem urls_distinct :
  (forall a b, _event_url a = _event_url b -> a = b)
  /\ (forall a b, _speaker_url a = _speaker_url b -> a = b)
  /\ (forall a b, _event_url a <> _speaker_url b)
  /\ (forall a, _event_url a <> INDEX_URL)
  /\ (forall a, _speaker_url a <> INDEX_URL).
Proof.
  unfold _event_url, _speaker_url, EVENT_URL_PATTERN, SPEAKER_URL_PATTERN, INDEX_URL.
  split_and!.
  - intros a b H. by apply (inj (String.append _)) in H.
  - intros a b H. by apply (inj (String.append _)) in H.
  - intros a b H. vm_compute in H. discriminate.
  - intros a H. vm_compute in H. discriminate.
  - intros a H. vm_compute in H. discriminate.
Qed.

End LinkFacts.

(** ** More facts about runs *)

Module RunFacts.
Import Text Re Bs4 Indexer TextFacts ReFacts Bs4Facts IndexerFacts Shape LinkFacts Examples MoreExamples.

Section Run.
Variable html_parser : string -> soup.
Variable http : string -> Response.

Abbreviation ok := (ok http).
Abbreviation page := (page http).
Abbreviation event_urls := (event_urls http).
Abbreviation event_docs := (event_docs html_parser http).
Abbreviation speaker_doc_of := (speaker_doc_of html_parser http).
Abbreviation all_ok := (all_ok http).
Abbreviation first_bad := (first_bad http).
Abbreviation events_ok := (events_ok http).
Abbreviation outcome := (outcome html_parser http).
Abbreviation new_events := (new_events http).
Abbreviation index_html := (index_html http).
Abbreviation selected := (selected http).
Abbreviation run := (_build_index html_parser http).

(** What every run does, in one place: either the index page cannot be
    fetched and nothing but the request log changes, or the events [done]
    are committed and the requests [extra] of a failing event are made
    after theirs. *)
Lemma run_summary (args : Args) (w : World) (r : result unit) (w' : World) :
  run args w = (r, w') ->
  (truthy_str (cache_file w) = false /\ ok INDEX_URL = false /\ exits r
   /\ data_dir w' = data_dir w /\ cache_file w' = cache_file w
   /\ requests w' = requests w ++ [INDEX_URL])
  \/ (all_ok (index_requests w)
      /\ exists done extra,
          done `prefix_of` selected args w
          /\ events_ok done
          /\ ((r = Return tt /\ done = selected args w /\ extra = [])
              \/ (exits r /\ exists u rest good bad,
                    selected args w = done ++ u :: rest
                    /\ first_bad (event_urls u) good bad /\ extra = good ++ [bad]))
          /\ stored w' = stored w ++ flat_map event_docs done
          /\ requests w' = requests w ++ index_requests w
                            ++ flat_map event_urls done ++ extra
          /\ cache_file w' = (if truthy_str (cache_file w) then cache_file w
                              else Some (page INDEX_URL))).
Proof.
  intros R.
  destruct (build_index_outcome _ _ _ _ _ _ R)
    as [(Ht & Hbad & -> & Hd & Hr & Ha & Hc)|(Hi & w0 & (Hs & Hr & Ha & Hc) & Ho)].
  - left. rewrite app_nil_r in Ha. done.
  - right. split; [done|].
    destruct Ho as [(-> & Hok & Hst & Hr' & Ha' & Hc')
                   |(dn & u & rest & good & bad & Hsel & Hok & Hb & -> & Hst & Hr' & Ha' & Hc')].
    + exists (selected args w), [].
      split_and!; [done|done|by left| | |].
      * by rewrite Hst, Hs.
      * by rewrite Hr', Hr, app_nil_r, <- app_assoc.
      * by rewrite Hc', Hc.
    + exists dn, (good ++ [bad]).
      split_and!; [rewrite Hsel; by apply prefix_app_r|done| | | |].
      * right. split; [done|]. by exists u, rest, good, bad.
      * by rewrite Hst, Hs.
      * by rewrite Hr', Hr, <- !app_assoc.
      * by rewrite Hc', Hc.
Qed.


(** X8: a run loses no document: whatever its outcome, every document
    stored before it is stored after it, as many times as before,
    wherever the library keeps it then; and the requests logged before
    it are a prefix of the requests logged after it. *)
Theorem run_loses_no_document (args : Args) (w : World) (r : result unit)
    (w' : World) :
  run args w = (r, w') ->
  stored w ⊆+ stored w' /\ requests w `prefix_of` requests w'.
Proof.
  intros R.
  destruct (run_summary _ _ _ _ R)
    as [(_ & _ & _ & Hd & _ & Hr)|(_ & dn & extra & _ & _ & _ & Hst & Hr & _)].
  - unfold stored. rewrite Hd, Hr. split; [done|by apply prefix_app_r].
  - rewrite Hst, Hr. split; [apply submseteq_inserts_r; done|by apply prefix_app_r].
Qed.

Lemma elem_of_prefix {A} (x : A) (l k : list A) : l `prefix_of` k -> x ∈ l -> x ∈ k.
Proof. intros [t ->] Hx. apply elem_of_app. by left. Qed.

Lemma selected_new (args : Args) (w : World) : selected args w `prefix_of` new_events w.
Proof.
  unfold Indexer.selected, take_opt. destruct (limit args 0); [apply prefix_take|done].
Qed.

Lemma new_events_elem (w : World) (u : string) :
  u ∈ new_events w ->
  (u ∉ snapshot w)
  /\ (exists event_id, event_id ∈ _index_event_ids (index_html w)
                       /\ u = _event_url event_id).
Proof.
  unfold Indexer.new_events, new_event_urls. intros H.
  apply list_elem_of_filter in H as [Hnew H].
  apply list_elem_of_fmap in H as (event_id & -> & Hin). split; [done|by exists event_id].
Qed.

Lemma event_urls_elem (u x : string) :
  x ∈ event_urls u ->
  x = u \/ exists speaker_id, speaker_id ∈ _speaker_ids (page u)
                              /\ x = _speaker_url speaker_id.
Proof.
  unfold Indexer.event_urls. intros H. apply elem_of_cons in H as [->|H]; [by left|].
  right. apply list_elem_of_fmap in H as (sid & -> & Hin). by exists sid.
Qed.

Lemma speaker_url_not_event (a b : string) : _speaker_url a <> _event_url b.
Proof.
  intros H. unfold _event_url, _speaker_url, EVENT_URL_PATTERN, SPEAKER_URL_PATTERN in H.
  vm_compute in H. discriminate.
Qed.

Lemma index_url_not_event (b : string) : INDEX_URL <> _event_url b.
Proof.
  intros H. unfold _event_url, EVENT_URL_PATTERN, INDEX_URL in H.
  vm_compute in H. discriminate.
Qed.

(** X9: a run never requests the page of an event whose URL is already
    in the index when it starts. *)
Theorem indexed_events_not_refetched (args : Args) (w : World) (r : result unit)
    (w' : World) :
  run args w = (r, w') ->
  exists rs,
    requests w' = requests w ++ rs
    /\ forall event_id, _event_url event_id ∈ snapshot w -> _event_url event_id ∉ rs.
Proof.
  intros R.
  destruct (run_summary _ _ _ _ R)
    as [(_ & _ & _ & _ & _ & Hr)
       |(_ & dn & extra & Hpre & _ & Hex & _ & Hr & _)].
  - exists [INDEX_URL]. split; [done|]. intros event_id _ Hin.
    apply list_elem_of_singleton in Hin. by apply (index_url_not_event event_id).
  - exists (index_requests w ++ flat_map event_urls dn ++ extra). split; [done|].
    intros event_id Hold Hin.
    assert (Hev : forall u x, u ∈ selected args w -> x ∈ event_urls u ->
                   x <> _event_url event_id).
    { intros u x Hu Hx ->.
      apply (elem_of_prefix _ _ _ (selected_new args w)) in Hu.
      apply new_events_elem in Hu as [Hnew _].
      apply event_urls_elem in Hx as [<-|(sid & _ & Hx)]; [done|].
      symmetry in Hx. by apply speaker_url_not_event in Hx. }
    rewrite !elem_of_app in Hin. destruct Hin as [Hin|[Hin|Hin]].
    + unfold index_requests in Hin. destruct (truthy_str (cache_file w)).
      * by apply elem_of_nil in Hin.
      * apply list_elem_of_singleton in Hin. by apply (index_url_not_event event_id).
    + apply list_elem_of_In, in_flat_map in Hin as (u & Hu & Hx).
      apply list_elem_of_In in Hu, Hx.
      apply (Hev u (_event_url event_id)); [|done|done].
      by apply (elem_of_prefix _ _ _ Hpre).
    + destruct Hex as [(_ & _ & ->)|(_ & u & rest & good & bad & Hsel & Hb & ->)].
      * by apply elem_of_nil in Hin.
      * destruct Hb as (more & Hu & _).
        apply (Hev u (_event_url event_id)); [| |done].
        -- rewrite Hsel. apply elem_of_app. right. left.
        -- rewrite Hu. apply elem_of_app in Hin as [Hin|Hin]; apply elem_of_app;
             [by left|right]. apply list_elem_of_singleton in Hin as ->. left.
Qed.

Lemma event_docs_urls (u x : string) :
  x ∈ doc_url <$> event_docs u ->
  x = u \/ exists speaker_id, x = _speaker_url speaker_id.
Proof.
  unfold Indexer.event_docs. rewrite fmap_cons. simpl. intros H.
  apply elem_of_cons in H as [->|H]; [by left|]. right.
  apply list_elem_of_fmap in H as (d & -> & Hd).
  apply list_elem_of_fmap in Hd as (sid & -> & _). by exists sid.
Qed.

Lemma event_stored_iff (event_id : string) (us : list string) :
  _event_url event_id ∈ doc_url <$> flat_map event_docs us
  <-> _event_url event_id ∈ us.
Proof.
  split; [|apply event_url_stored].
  induction us as [|u us IH]; cbn [flat_map]; [done|].
  rewrite fmap_app, elem_of_app. intros [H|H].
  - apply event_docs_urls in H as [<-|(sid & H)]; [left|].
    symmetry in H. by apply speaker_url_not_event in H.
  - right. by apply IH.
Qed.

Lemma filter_all {A} (P : A -> Prop) `{!forall x, Decision (P x)} (l : list A) :
  (forall x, x ∈ l -> P x) -> filter P l = l.
Proof.
  induction l as [|x l IH]; intros Hall; [done|].
  rewrite filter_cons_True by (apply Hall; left). f_equal. apply IH.
  intros y Hy. apply Hall. by right.
Qed.

Lemma new_events_without (w w' : World) (dn : list string) :
  stored w' = stored w ++ flat_map event_docs dn ->
  cache_file w' = (if truthy_str (cache_file w) then cache_file w
                   else Some (page INDEX_URL)) ->
  new_events w' = filter (fun u => u ∉ dn) (new_events w).
Proof.
  intros Hst Hc.
  unfold Indexer.new_events. rewrite (index_ids_after _ _ _ Hc).
  unfold new_event_urls, snapshot. rewrite list_filter_filter, Hst.
  induction (_index_event_ids (index_html w)) as [|event_id ids IH]; [done|].
  rewrite fmap_cons, !filter_cons, IH.
  assert (Hiff : _event_url event_id ∉ (list_to_set (doc_url <$> stored w
                                          ++ flat_map event_docs dn) : gset string)
                 <-> (_event_url event_id ∉ dn)
                     /\ (_event_url event_id ∉ (list_to_set (doc_url <$> stored w)
                                                 : gset string))).
  { rewrite !elem_of_list_to_set, fmap_app, elem_of_app, event_stored_iff. tauto. }
  destruct (decide (_event_url event_id ∉ _)) as [H1|H1];
    destruct (decide (_ /\ _)) as [H2|H2]; try done; tauto.
Qed.

(** X10: after any run, the new events of the next run are the new
    events of this run without the events it committed, in the same
    order; a run that ends normally committed all the events it
    selected. *)
Theorem remaining_events (args : Args) (w : World) (r : result unit) (w' : World) :
  run args w = (r, w') ->
  exists done,
    done `prefix_of` selected args w
    /\ (r = Return tt -> done = selected args w)
    /\ new_events w' = filter (fun u => u ∉ done) (new_events w).
Proof.
  intros R.
  destruct (run_summary _ _ _ _ R)
    as [(_ & _ & Hex & Hd & Hc & _)
       |(_ & dn & extra & Hpre & _ & Hcase & Hst & _ & Hc)].
  - exists []. split; [apply prefix_nil|]. split; [by intros ->|].
    unfold Indexer.new_events, Indexer.index_html, snapshot, stored.
    rewrite Hd, Hc. symmetry. apply filter_all. intros u _. apply not_elem_of_nil.
  - exists dn. split; [done|]. split.
    + intros ->. by destruct Hcase as [(_ & ? & _)|([] & _)].
    + by apply new_events_without.
Qed.

(** X11: [-m 0] is no cap at all: the run is the run without [-m]. *)
Theorem zero_cap_is_no_cap (w : World) :
  run {| max_events := Some 0 |} w = run {| max_events := None |} w.
Proof.
  unfold _build_index.
  assert (H : forall existing_urls event_ids indexed w0,
    for_event_ids html_parser http {| max_events := Some 0 |} existing_urls
      event_ids indexed w0
    = for_event_ids html_parser http {| max_events := None |} existing_urls
        event_ids indexed w0).
  { intros existing_urls event_ids.
    induction event_ids as [|event_id rest IH]; intros indexed w0; [done|].
    simpl. destruct (bool_decide _).
    - unfold bind. destruct (pbar_write _ w0) as [[[]|msg] w1]; [apply IH|done].
    - unfold bind. destruct (pbar_write _ w0) as [[[]|msg] w1]; [|done].
      destruct (_index_event _ _ _ w1) as [[[]|msg] w2]; [apply IH|done]. }
  unfold bind. destruct (_get_index_html http w) as [[html|msg] w1]; [|done].
  destruct (_init_data w1) as [[[]|msg] w2]; [|done].
  destruct (_read_data_urls w2) as [[existing|msg] w3]; [apply H|done].
Qed.

Lemma filter_on_elements {A} (P Q : A -> Prop) `{!forall x, Decision (P x)}
    `{!forall x, Decision (Q x)} (l : list A) :
  (forall x, x ∈ l -> P x <-> Q x) -> filter P l = filter Q l.
Proof.
  induction l as [|x l IH]; intros Hall; [done|].
  rewrite !filter_cons, IH by (intros y Hy; apply Hall; by right).
  destruct (decide (P x)) as [HP|HP], (decide (Q x)) as [HQ|HQ]; try done;
    exfalso; apply (Hall x (list_elem_of_here _ _)) in HP || apply (Hall x (list_elem_of_here _ _)) in HQ; done.
Qed.

Lemma filter_not_in_take {A} `{!EqDecision A} (l : list A) : forall n,
  NoDup l -> filter (fun x => x ∉ take n l) l = drop n l.
Proof.
  induction l as [|x l IH]; intros n Hnd; [by destruct n|].
  apply NoDup_cons in Hnd as [Hx Hnd]. destruct n as [|n]; simpl.
  - apply filter_all. intros y _. apply not_elem_of_nil.
  - rewrite filter_cons_False by (intros H; apply H; left).
    rewrite <- (IH n Hnd). apply filter_on_elements. intros y Hy.
    rewrite not_elem_of_cons. split; [tauto|]. intros H. split; [|done].
    intros ->. done.
Qed.

(** X12: with a cap [N > 0] and an index page that lists no new event
    twice, a run that ends normally leaves as new events exactly the new
    events it started with less the first [N]: capped runs walk through
    the page in order. *)
Theorem capped_runs_walk_the_page (args : Args) (w w' : World) (N : Z) :
  max_events args = Some N -> 0 < N ->
  NoDup (new_events w) ->
  run args w = (Return tt, w') ->
  new_events w' = drop (Z.to_nat N) (new_events w).
Proof.
  intros Hm HN Hnd R.
  destruct (run_summary _ _ _ _ R)
    as [(_ & _ & [] & _)|(_ & dn & extra & _ & _ & Hcase & Hst & _ & Hc)].
  destruct Hcase as [(_ & -> & _)|([] & _)].
  rewrite (new_events_without w w' _ Hst Hc).
  rewrite (selected_positive http args w N Hm HN).
  by apply filter_not_in_take.
Qed.

(** *** The documents a run writes *)

Lemma landmark_text_stripped (t : option node) : stripped (landmark_text t).
Proof. destruct t; [apply strip_stripped|apply stripped_empty]. Qed.

Lemma speaker_bio_stripped (s : soup) : stripped (_speaker_bio s).
Proof.
  unfold _speaker_bio. destruct (find_with_siblings _ _ s) as [[h sibs]|];
    [|apply stripped_empty].
  destruct (find_next_sibling _ sibs); [apply strip_stripped|apply stripped_empty].
Qed.

Lemma event_doc_is_ok (event_id html : string) :
  event_id_ok event_id ->
  event_doc_ok (_event_doc html_parser (_event_url event_id) html).
Proof.
  intros Hid. unfold event_doc_ok. simpl.
  split_and!; try done; try apply landmark_text_stripped. by exists event_id.
Qed.

Lemma speaker_doc_is_ok (speaker_id html : string) :
  speaker_id_ok speaker_id ->
  speaker_doc_ok (_speaker_doc html_parser (_speaker_url speaker_id) html).
Proof.
  intros Hid. unfold speaker_doc_ok. simpl.
  split_and!; try done; try apply landmark_text_stripped;
    [by exists speaker_id|apply speaker_bio_stripped].
Qed.

Lemma event_docs_ok (event_id : string) :
  event_id_ok event_id -> Forall doc_ok (event_docs (_event_url event_id)).
Proof.
  intros Hid. unfold Indexer.event_docs. constructor.
  - left. by apply event_doc_is_ok.
  - apply Forall_fmap.
    eapply Forall_impl;
      [exact (findall_groups_ok SPEAKER_ID_P (page (_event_url event_id)))|]. intros sid Hsid. right.
    by apply speaker_doc_is_ok.
Qed.

(** X13: every document a run adds to the index is well formed: an event
    document with the URL of a digit id, no organisation, stripped title,
    subtype and description and the content joined from type, subtype,
    title and description; or a speaker document with the URL of a
    digit-and-hyphen id, no subtype, stripped fields and the content
    joined from type, title, organisation and description. *)
Theorem run_writes_well_formed_documents (args : Args) (w : World)
    (r : result unit) (w' : World) :
  run args w = (r, w') ->
  exists ds, stored w' ≡ₚ stored w ++ ds /\ Forall doc_ok ds.
Proof.
  intros R.
  destruct (run_summary _ _ _ _ R)
    as [(_ & _ & _ & Hd & _ & _)|(_ & dn & extra & Hpre & _ & _ & Hst & _)].
  - exists []. split; [|constructor]. unfold stored. by rewrite Hd, app_nil_r.
  - exists (flat_map event_docs dn). split; [by rewrite Hst|].
    apply Forall_flat_map, Forall_forall. intros u Hu.
    apply (elem_of_prefix _ _ _ Hpre) in Hu.
    apply (elem_of_prefix _ _ _ (selected_new args w)) in Hu.
    apply new_events_elem in Hu as (_ & event_id & Hid & ->).
    apply event_docs_ok.
    pose proof (findall_groups_ok EVENT_ID_P (index_html w)) as Hok.
    rewrite Forall_forall in Hok. by apply Hok.
Qed.

(** X17: a run that fails while indexing an event leaves that event
    new: none of the events committed before it is that event, and the
    next run finds it among its new events. *)
Theorem failed_event_stays_new (args : Args) (w : World) (msg : string) (w' : World) :
  run args w = (SystemExit msg, w') ->
  all_ok (index_requests w) ->
  exists u, u ∈ selected args w /\ ~ all_ok (event_urls u)
            /\ u ∈ new_events w' /\ (u ∉ snapshot w').
Proof.
  intros R Hi.
  destruct (run_summary _ _ _ _ R)
    as [(Ht & Hbad & _)|(_ & dn & extra & Hpre & Hok & Hcase & Hst & _ & Hc)].
  { unfold index_requests in Hi. rewrite Ht in Hi. inversion Hi; congruence. }
  destruct Hcase as [([=] & _)|(_ & u & rest & good & bad & Hsel & Hb & _)].
  assert (Hu : ~ all_ok (event_urls u))
    by (intros H; exact (first_bad_not_all_ok http _ _ _ Hb H)).
  assert (Hnd : u ∉ dn).
  { intros Hin. apply Hu. exact (proj1 (Forall_forall _ _) Hok u Hin). }
  assert (Hus : u ∈ selected args w).
  { rewrite Hsel. apply elem_of_app. right. left. }
  pose proof (elem_of_prefix _ _ _ (selected_new args w) Hus) as Hnew.
  apply new_events_elem in Hnew as (Hsnap & event_id & Hid & ->).
  assert (Hout : _event_url event_id ∉ snapshot w').
  { unfold snapshot. rewrite elem_of_list_to_set, Hst, fmap_app, elem_of_app.
    intros [H|H].
    - apply Hsnap. unfold snapshot. by rewrite elem_of_list_to_set.
    - apply Hnd. by apply event_stored_iff. }
  exists (_event_url event_id). split_and!; [done|done| |done].
  unfold Indexer.new_events. rewrite (index_ids_after _ _ _ Hc).
  unfold new_event_urls. apply list_elem_of_filter. split; [done|].
  by apply list_elem_of_fmap_2.
Qed.

(** X18: when the index page is not cached and cannot be fetched, the
    run ends after that one request, before the index is opened: the
    index directory, the cache file and the documents are as before. *)
Theorem index_fetch_failure (args : Args) (w : World) (r : result unit) (w' : World) :
  run args w = (r, w') ->
  truthy_str (cache_file w) = false -> ok INDEX_URL = false ->
  r = SystemExit (error_message INDEX_URL (http INDEX_URL))
  /\ requests w' = requests w ++ [INDEX_URL]
  /\ data_dir w' = data_dir w /\ cache_file w' = cache_file w
  /\ added w' = added w.
Proof.
  intros R Ht Hbad.
  destruct (build_index_outcome _ _ _ _ _ _ R)
    as [(_ & _ & -> & Hd & Hr & Ha & Hc)|(Hi & _)].
  - rewrite app_nil_r in Ha. done.
  - unfold index_requests in Hi. rewrite Ht in Hi. inversion Hi; congruence.
Qed.

(** X19: a run that finds a cached index page that is not empty never
    requests the index page: it works on the cached page, and requests
    event and speaker pages only. *)
Theorem cached_index_not_requested (args : Args) (w : World) (r : result unit)
    (w' : World) :
  run args w = (r, w') ->
  truthy_str (cache_file w) = true ->
  exists rs,
    requests w' = requests w ++ rs
    /\ (INDEX_URL ∉ rs)
    /\ Forall (fun x => (exists event_id, x = _event_url event_id)
                        \/ (exists speaker_id, x = _speaker_url speaker_id)) rs
    /\ cache_file w' = cache_file w.
Proof.
  intros R Ht.
  destruct (run_summary _ _ _ _ R)
    as [(Hf & _)|(_ & dn & extra & Hpre & _ & Hcase & _ & Hr & Hc)]; [congruence|].
  rewrite Ht in Hc. unfold index_requests in Hr. rewrite Ht in Hr. simpl in Hr.
  assert (Hshape : Forall (fun x => (exists event_id, x = _event_url event_id)
                        \/ (exists speaker_id, x = _speaker_url speaker_id))
                     (flat_map event_urls dn ++ extra)).
  { assert (Hev : forall u, u ∈ selected args w ->
              Forall (fun x => (exists event_id, x = _event_url event_id)
                        \/ (exists speaker_id, x = _speaker_url speaker_id))
                (event_urls u)).
    { intros u Hu. apply Forall_forall. intros x Hx.
      apply (elem_of_prefix _ _ _ (selected_new args w)) in Hu.
      apply new_events_elem in Hu as (_ & event_id & _ & ->).
      apply event_urls_elem in Hx as [->|(sid & _ & ->)]; [left|right]; eauto. }
    apply Forall_app. split.
    - apply Forall_flat_map, Forall_forall. intros u Hu.
      apply Hev. by apply (elem_of_prefix _ _ _ Hpre).
    - destruct Hcase as [(_ & _ & ->)|(_ & u & rest & good & bad & Hsel & Hb & ->)];
        [constructor|].
      destruct Hb as (more & Hu & _).
      assert (Hall := Hev u ltac:(rewrite Hsel; apply elem_of_app; right; left)).
      rewrite Hu in Hall. apply Forall_app in Hall as [Hg Hb'].
      apply Forall_cons in Hb' as [Hb' _].
      apply Forall_app. split; [done|]. by constructor. }
  exists (flat_map event_urls dn ++ extra). split_and!; [done| |done|done].
  intros Hin. rewrite Forall_forall in Hshape.
  destruct (Hshape _ Hin) as [(event_id & H)|(sid & H)].
  - by apply index_url_not_event in H.
  - unfold _speaker_url, SPEAKER_URL_PATTERN, INDEX_URL in H.
    vm_compute in H. discriminate.
Qed.

End Run.

(** *** Fetching and the cache *)

(** X4: [_http_get] makes exactly one request, for the URL it is given,
    and changes nothing else; the text it returns has no whitespace at
    either end. *)
Theorem http_get_one_request_stripped (http : string -> Response) (url : string)
    (w : World) (r : result string) (w' : World) :
  _http_get http url w = (r, w') ->
  requests w' = requests w ++ [url]
  /\ data_dir w' = data_dir w /\ pending w' = pending w
  /\ cache_file w' = cache_file w /\ added w' = added w /\ console w' = console w
  /\ forall s, r = Return s ->
       stripped s /\ starts_clean s
       /\ forall t c, s = t +:+ String c "" -> py_isspace c = false.
Proof.
  unfold _http_get, bind, http_sess_get.
  destruct (negb (status_code (http url) =? 200)); intros [= <- <-]; simpl;
    split_and!; try done.
  intros s [= <-]. split_and!.
  - apply strip_stripped.
  - apply rstrip_starts_clean, lstrip_starts_clean.
  - intros t c H. by apply (rstrip_ends_clean _ t c H).
Qed.

(** X5: the cache has no expiry: once [_get_index_html] has returned a
    page that is not empty, every later call on a world with that cache
    file makes no request, whatever the site answers by then, and
    returns that page as the text-mode read of the cache file gives it,
    every carriage return, alone or before a line feed, read as one line
    feed: the same page when it holds no carriage return, and in every
    case a page with the same event ids. *)
Theorem index_page_cached_forever (http http' : string -> Response)
    (w w1 w2 : World) (html : string) :
  _get_index_html http w = (Return html, w1) ->
  html <> "" ->
  cache_file w2 = cache_file w1 ->
  _get_index_html http' w2 = (Return (universal_newlines html), w2)
  /\ (lacks CR html -> _get_index_html http' w2 = (Return html, w2))
  /\ _index_event_ids (universal_newlines html) = _index_event_ids html.
Proof.
  intros R Hne Hc.
  assert (H1 : exists c, cache_file w1 = Some c /\ c <> ""
                         /\ universal_newlines c = universal_newlines html).
  { destruct (get_index_html_run http w)
      as [(_ & _ & w0 & E & _)|(_ & w0 & E & _ & _ & (_ & _ & _ & Hc1))].
    - rewrite E in R. discriminate.
    - rewrite E in R. injection R as <- <-. rewrite Hc1.
      unfold index_html in *. destruct (truthy_str (cache_file w)) eqn:Ht.
      + destruct (cache_file w) as [c|]; [|done]. exists c.
        split; [done|]. split; [by destruct c|].
        simpl. by rewrite universal_newlines_idem.
      + by exists (page http INDEX_URL). }
  destruct H1 as (c & H1 & Hcne & Hcu).
  assert (E : _get_index_html http' w2 = (Return (universal_newlines html), w2)).
  { unfold _get_index_html, bind, _cached.
    rewrite truthy_str_newlines, Hc, H1. simpl.
    destruct c; [done|]. unfold ret. by rewrite <- Hcu. }
  split_and!; [done| |apply index_event_ids_newlines].
  intros Hcr. by rewrite E, universal_newlines_id.
Qed.

(** X6: an index page that is empty after stripping is written to the
    cache but never served from it: the call that returns it has made a
    request, and so does every later call on that cache file. *)
Theorem empty_index_page_refetched (http http' : string -> Response)
    (w w1 w2 : World) :
  _get_index_html http w = (Return "", w1) ->
  cache_file w2 = cache_file w1 ->
  cache_file w1 = Some ""
  /\ requests w1 = requests w ++ [INDEX_URL]
  /\ requests (_get_index_html http' w2).2 = requests w2 ++ [INDEX_URL].
Proof.
  intros R Hc.
  assert (H1 : cache_file w1 = Some "" /\ requests w1 = requests w ++ [INDEX_URL]).
  { unfold _get_index_html, bind, _cached in R.
    rewrite truthy_str_newlines in R.
    destruct (truthy_str (cache_file w)) eqn:Ht.
    - destruct (cache_file w) as [c|]; [|done]. injection R as R _.
      apply universal_newlines_nil in R. by subst c.
    - unfold _http_get, bind, http_sess_get in R.
      destruct (negb (status_code (http INDEX_URL) =? 200)); [done|].
      unfold _cache, ret in R. injection R as R <-. simpl. by rewrite R. }
  destruct H1 as [H1 H2]. split_and!; [done..|].
  unfold _get_index_html, bind, _cached. rewrite Hc, H1. simpl.
  unfold _http_get, bind, http_sess_get.
  by destruct (negb (status_code (http' INDEX_URL) =? 200)).
Qed.

(** *** The theorems on the example sites *)

Lemma http_get_one_request_stripped_witness :
  exists r w',
    _http_get site INDEX_URL empty_world = (r, w')
    /\ requests w' = requests empty_world ++ [INDEX_URL]
    /\ forall s, r = Return s -> stripped s.
Proof.
  eexists _, _. split; [vm_compute; reflexivity|].
  destruct (http_get_one_request_stripped site INDEX_URL empty_world _ _ eq_refl)
    as (Hr & _ & _ & _ & _ & _ & Hs).
  split; [exact Hr|]. intros s Hrs. by destruct (Hs s Hrs).
Defined.

Lemma index_page_cached_forever_witness :
  exists html w1,
    _get_index_html site empty_world = (Return html, w1)
    /\ html <> ""
    /\ _get_index_html site_down w1 = (Return html, w1).
Proof.
  exists (page site INDEX_URL), (_get_index_html site empty_world).2.
  assert (R : _get_index_html site empty_world
              = (Return (page site INDEX_URL), (_get_index_html site empty_world).2))
    by (vm_compute; reflexivity).
  destruct (index_page_cached_forever site site_down empty_world _
              (_get_index_html site empty_world).2 _ R)
    as (_ & H & _); [discriminate|reflexivity|].
  split; [exact R|]. split; [discriminate|]. apply H. vm_compute. reflexivity.
Defined.

Lemma empty_index_page_refetched_witness :
  exists w1,
    _get_index_html site_blank empty_world = (Return "", w1)
    /\ cache_file w1 = Some ""
    /\ requests w1 = [INDEX_URL]
    /\ requests (_get_index_html site_down w1).2 = requests w1 ++ [INDEX_URL].
Proof.
  eexists. split; [vm_compute; reflexivity|].
  eapply (empty_index_page_refetched site_blank site_down empty_world).
  - vm_compute. reflexivity.
  - reflexivity.
Defined.


Lemma run_loses_no_document_witness :
  exists r w',
    _build_index plain_parser site_missing_speaker no_cap stored_world = (r, w')
    /\ stored stored_world ⊆+ stored w'
    /\ requests stored_world `prefix_of` requests w'.
Proof.
  eexists _, _. split; [vm_compute; reflexivity|].
  eapply (run_loses_no_document plain_parser site_missing_speaker no_cap stored_world).
  vm_compute. reflexivity.
Defined.

Lemma indexed_events_not_refetched_witness :
  exists r w' rs,
    _build_index plain_parser site no_cap stored_world = (r, w')
    /\ requests w' = requests stored_world ++ rs
    /\ (_event_url "1" ∉ rs).
Proof.
  destruct (_build_index plain_parser site no_cap stored_world) as [r w'] eqn:R.
  destruct (indexed_events_not_refetched plain_parser site no_cap stored_world r w' R)
    as (rs & Hr & Hskip).
  exists r, w', rs. split; [reflexivity|]. split; [exact Hr|]. apply Hskip.
  apply (bool_decide_unpack _). vm_compute. exact I.
Defined.

Lemma remaining_events_witness :
  exists r w' done,
    _build_index plain_parser site (cap 1) empty_world = (r, w')
    /\ done `prefix_of` selected site (cap 1) empty_world
    /\ (r = Return tt -> done = selected site (cap 1) empty_world)
    /\ new_events site w' = filter (fun u => u ∉ done) (new_events site empty_world).
Proof.
  destruct (_build_index plain_parser site (cap 1) empty_world) as [r w'] eqn:R.
  destruct (remaining_events plain_parser site (cap 1) empty_world r w' R)
    as (dn & H).
  exists r, w', dn. split; [reflexivity|exact H].
Defined.

Lemma capped_runs_walk_the_page_witness :
  exists w',
    _build_index plain_parser site (cap 1) empty_world = (Return tt, w')
    /\ new_events site w' = [_event_url "2"].
Proof.
  eexists. split; [vm_compute; reflexivity|].
  erewrite (capped_runs_walk_the_page plain_parser site (cap 1) empty_world _ 1).
  - vm_compute. reflexivity.
  - reflexivity.
  - lia.
  - apply (bool_decide_unpack _). vm_compute. exact I.
  - vm_compute. reflexivity.
Defined.

Lemma run_writes_well_formed_documents_witness :
  exists r w' ds,
    _build_index plain_parser site no_cap empty_world = (r, w')
    /\ stored w' ≡ₚ stored empty_world ++ ds /\ Forall doc_ok ds.
Proof.
  destruct (_build_index plain_parser site no_cap empty_world) as [r w'] eqn:R.
  destruct (run_writes_well_formed_documents plain_parser site no_cap empty_world r w' R)
    as (ds & H).
  exists r, w', ds. split; [reflexivity|exact H].
Defined.

Lemma failed_event_stays_new_witness :
  exists msg w',
    _build_index plain_parser site_missing_speaker no_cap empty_world
    = (SystemExit msg, w')
    /\ exists u, u ∈ selected site_missing_speaker no_cap empty_world
                 /\ ~ all_ok site_missing_speaker (event_urls site_missing_speaker u)
                 /\ u ∈ new_events site_missing_speaker w' /\ (u ∉ snapshot w').
Proof.
  eexists _, _. split; [vm_compute; reflexivity|].
  eapply (failed_event_stays_new plain_parser site_missing_speaker no_cap empty_world).
  - vm_compute. reflexivity.
  - vm_compute. repeat constructor.
Defined.

Lemma index_fetch_failure_witness :
  exists r w',
    _build_index plain_parser site_down no_cap empty_world = (r, w')
    /\ r = SystemExit (error_message INDEX_URL response_404)
    /\ requests w' = [INDEX_URL] /\ data_dir w' = None /\ cache_file w' = None.
Proof.
  destruct (_build_index plain_parser site_down no_cap empty_world) as [r w'] eqn:R.
  destruct (index_fetch_failure plain_parser site_down no_cap empty_world r w' R)
    as (Hr & Hq & Hd & Hc & _); [reflexivity|reflexivity|].
  exists r, w'. split; [reflexivity|]. split_and!; assumption.
Defined.

Lemma cached_index_not_requested_witness :
  exists r w' rs,
    _build_index plain_parser site no_cap cached_world = (r, w')
    /\ requests w' = requests cached_world ++ rs /\ (INDEX_URL ∉ rs)
    /\ cache_file w' = cache_file cached_world.
Proof.
  destruct (_build_index plain_parser site no_cap cached_world) as [r w'] eqn:R.
  destruct (cached_index_not_requested plain_parser site no_cap cached_world r w' R)
    as (rs & Hr & Hn & _ & Hc); [reflexivity|].
  exists r, w', rs. split; [reflexivity|]. split_and!; assumption.
Defined.

End RunFacts.

(** ** Facts about printing and the command line *)

Module CliFacts.
Import Text Indexer TextFacts Cli Examples MoreExamples.

Section Printing.
Variable textwrap_wrap : string -> list string.
Variable whoosh_search : list Document -> string -> list Document.
Variable html_parser : string -> Bs4.soup.
Variable http : string -> Response.

Abbreviation doc_lines := (doc_lines textwrap_wrap).
Abbreviation main := (main textwrap_wrap whoosh_search html_parser http).

Lemma divided_cons (b : list string) (blocks : list (list string)) :
  divided (b :: blocks)
  = b ++ match blocks with
         | [] => []
         | _ => "---" :: divided blocks
         end.
Proof. destruct blocks; simpl; [by rewrite app_nil_r|done]. Qed.

Lemma for_results_run (results : list Document) : forall (l0 : bool) (w : World),
  exists w',
    for_results textwrap_wrap l0 results w = (Return tt, w')
    /\ only_printed w w'
         (match results with
          | [] => []
          | _ => (if l0 then [] else ["---"]) ++ divided (doc_lines <$> results)
          end).
Proof.
  induction results as [|fields rest IH]; intros l0 w.
  - exists w. split; [done|]. unfold only_printed. by rewrite app_nil_r.
  - cbn [for_results].
    set (w1 := (if negb l0 then print "---" else ret tt) w).
    assert (H1 : exists w1', w1 = (Return tt, w1')
                 /\ only_printed w w1' (if l0 then [] else ["---"])).
    { unfold w1. destruct l0; simpl.
      - exists w. split; [done|]. unfold only_printed. by rewrite app_nil_r.
      - eexists. split; [reflexivity|]. by unfold only_printed. }
    destruct H1 as (w1' & E1 & (Hc1 & Hd1 & Hp1 & Hf1 & Hr1 & Ha1)).
    unfold bind at 1. fold w1. rewrite E1.
    unfold bind at 1 2 3 4 5 6 7. unfold print at 1 2 3 4 5 6 7. simpl.
    match goal with
    | |- exists w', for_results _ false rest ?w2 = _ /\ _ =>
        destruct (IH false w2) as (w' & E & (Hc & Hd & Hp & Hf & Hr & Ha))
    end.
    exists w'. split; [exact E|]. simpl in Hc, Hd, Hp, Hf, Hr, Ha.
    unfold only_printed. split_and!; [|congruence..].
    rewrite Hc, Hc1. unfold Cli.doc_lines.
    destruct rest as [|d rest'], l0; simpl; rewrite <- ?app_assoc; simpl;
      rewrite ?app_nil_r; done.
Qed.

Lemma indented_block_not_divider (s : string) :
  _indented_text_block textwrap_wrap s <> "---".
Proof.
  unfold _indented_text_block, join.
  destruct (textwrap_wrap s) as [|l [|l' ls]]; simpl; discriminate.
Qed.

Lemma doc_lines_no_divider (fields : Document) : "---" ∉ doc_lines fields.
Proof.
  unfold Cli.doc_lines. intros H.
  repeat (apply elem_of_cons in H as [H|H]; [try discriminate H|]).
  - symmetry in H. by apply indented_block_not_divider in H.
  - by apply elem_of_nil in H.
Qed.

Lemma filter_none {A} (P : A -> Prop) `{!forall x, Decision (P x)} (l : list A) :
  (forall x, x ∈ l -> ~ P x) -> filter P l = [].
Proof.
  induction l as [|x l IH]; intros Hall; [done|].
  rewrite filter_cons_False by (apply Hall; left). apply IH.
  intros y Hy. apply Hall. by right.
Qed.

Lemma divided_count (results : list Document) :
  length (filter (fun line => line = "---") (divided (doc_lines <$> results)))
  = pred (length results).
Proof.
  induction results as [|fields rest IH]; [done|].
  assert (Hnone : filter (fun line => line = "---") (doc_lines fields) = []).
  { apply filter_none. intros x Hx ->. by apply (doc_lines_no_divider fields). }
  destruct rest as [|d rest'].
  - cbn [fmap list_fmap divided]. by rewrite Hnone.
  - rewrite !fmap_cons. rewrite fmap_cons in IH.
    change (divided (doc_lines fields :: doc_lines d :: (doc_lines <$> rest')))
      with (doc_lines fields ++ "---" :: divided (doc_lines d :: (doc_lines <$> rest'))).
    rewrite filter_app, Hnone, filter_cons_True by done.
    cbn [app length]. by rewrite IH.
Qed.

Lemma divided_last (results : list Document) :
  last (divided (doc_lines <$> results))
  = (fun fields => _indented_text_block textwrap_wrap (doc_description fields))
      <$> last results.
Proof.
  induction results as [|fields rest IH]; [done|].
  destruct rest as [|d rest'].
  - cbn [fmap list_fmap divided]. done.
  - rewrite !fmap_cons. rewrite fmap_cons in IH.
    change (divided (doc_lines fields :: doc_lines d :: (doc_lines <$> rest')))
      with (doc_lines fields ++ "---" :: divided (doc_lines d :: (doc_lines <$> rest'))).
    change (last (fields :: d :: rest')) with (last (d :: rest')).
    rewrite <- IH.
    destruct (divided (doc_lines d :: (doc_lines <$> rest'))) as [|x l] eqn:Hd.
    + exfalso. clear -Hd. destruct rest'; discriminate Hd.
    + by rewrite (last_app_cons (doc_lines fields) (x :: l) "---"), last_cons_cons.
Qed.

(** X14: [_print_results] prints, for each document in turn, its seven
    lines, with one divider line between consecutive documents and none
    before the first or after the last; it changes nothing but the
    console. *)
Theorem print_results_format (results : list Document) (w : World) :
  exists w',
    _print_results textwrap_wrap results w = (Return tt, w')
    /\ only_printed w w' (divided (doc_lines <$> results))
    /\ length (filter (fun line => line = "---") (divided (doc_lines <$> results)))
       = pred (length results)
    /\ last (divided (doc_lines <$> results))
       = (fun fields => _indented_text_block textwrap_wrap (doc_description fields))
           <$> last results.
Proof.
  destruct (for_results_run results true w) as (w' & E & H).
  exists w'. split; [exact E|]. split; [|split; [apply divided_count|apply divided_last]].
  by destruct results.
Qed.

Lemma init_data_run (w : World) :
  exists w', _init_data w = (Return tt, w')
    /\ data_dir w' = Some (stored w) /\ pending w' = pending w
    /\ cache_file w' = cache_file w /\ requests w' = requests w
    /\ added w' = added w /\ console w' = console w.
Proof.
  unfold _init_data, stored. destruct (data_dir w) eqn:Hd; eexists; split; done.
Qed.

Lemma print_stored_run (pick : list Document -> list Document) (w : World) :
  exists w',
    (do _ <- _init_data;
     do results <- (fun w0 => (Return (pick (stored w0)), w0));
     _print_results textwrap_wrap results)%py w = (Return tt, w')
    /\ console w' = console w ++ divided (doc_lines <$> pick (stored w))
    /\ data_dir w' = Some (stored w) /\ stored w' = stored w
    /\ cache_file w' = cache_file w /\ requests w' = requests w
    /\ added w' = added w.
Proof.
  destruct (init_data_run w) as (w1 & E1 & Hd1 & Hp1 & Hf1 & Hr1 & Ha1 & Hc1).
  unfold bind at 1. rewrite E1. unfold bind.
  assert (Hs1 : stored w1 = stored w) by (unfold stored at 1; by rewrite Hd1).
  destruct (for_results_run (pick (stored w1)) true w1)
    as (w' & E & (Hc & Hd & Hp & Hf & Hr & Ha)).
  exists w'. split; [exact E|]. rewrite Hs1 in Hc.
  split_and!; try congruence.
  - rewrite Hc, Hc1. by destruct (pick (stored w)).
  - unfold stored at 1. by rewrite Hd, Hd1.
Qed.

(** X15: with [-p] the program prints every stored document in index
    order in the format of [_print_results], creates the index when there
    is none, sends no request and stores nothing, whatever [-f] and [-m]
    say. *)
Theorem main_print_docs (args : Namespace) (w : World) :
  ns_print_docs args = true ->
  exists w',
    main args w = (Return tt, w')
    /\ console w' = console w ++ divided (doc_lines <$> stored w)
    /\ data_dir w' = Some (stored w) /\ stored w' = stored w
    /\ cache_file w' = cache_file w /\ requests w' = requests w
    /\ added w' = added w.
Proof.
  intros Hp. unfold Cli.main. rewrite Hp.
  exact (print_stored_run (fun docs => docs) w).
Qed.

(** X16: with [-f TEXT] for a text that is not empty, and without [-p],
    the program prints the search results over the stored documents in
    the format of [_print_results], sends no request and stores
    nothing, whatever [-m] says. *)
Theorem main_find (args : Namespace) (search_text : string) (w : World) :
  ns_print_docs args = false ->
  ns_find args = Some search_text -> search_text <> "" ->
  exists w',
    main args w = (Return tt, w')
    /\ console w' = console w
                    ++ divided (doc_lines <$> whoosh_search (stored w) search_text)
    /\ data_dir w' = Some (stored w) /\ stored w' = stored w
    /\ cache_file w' = cache_file w /\ requests w' = requests w
    /\ added w' = added w.
Proof.
  intros Hp Hf Hne. unfold Cli.main. rewrite Hp, Hf.
  destruct search_text as [|c s]; [done|]. simpl.
  exact (print_stored_run (fun docs => whoosh_search docs (String c s)) w).
Qed.

(** X20: building and then printing compose: after a run that ended
    normally, [-p] prints, in the order the index holds them, the
    documents stored before the run together with the documents of every
    event the run selected, the event document and those of its
    speakers, each as many times as it was written. *)
Theorem print_after_build (args : Args) (flags : Namespace) (w w1 : World) :
  _build_index html_parser http args w = (Return tt, w1) ->
  ns_print_docs flags = true ->
  exists w2 docs,
    main flags w1 = (Return tt, w2)
    /\ console w2 = console w1 ++ divided (doc_lines <$> docs)
    /\ docs ≡ₚ stored w ++ flat_map (event_docs html_parser http)
                             (selected http args w)
    /\ stored w2 = stored w1 /\ requests w2 = requests w1.
Proof.
  intros R Hp.
  destruct (RunFacts.run_summary html_parser http args w _ _ R)
    as [(_ & _ & [] & _)|(_ & dn & extra & _ & _ & Hcase & Hst & _)].
  destruct Hcase as [(_ & -> & _)|([] & _)].
  unfold Cli.main. rewrite Hp.
  destruct (print_stored_run (fun docs => docs) w1)
    as (w2 & E & Hc & _ & Hs & _ & Hr & _).
  exists w2, (stored w1).
  split_and!; [exact E|exact Hc|by rewrite Hst|exact Hs|exact Hr].
Qed.

End Printing.
Lemma main_print_docs_witness :
  exists w',
    main one_line first_hit plain_parser site
      {| ns_print_docs := true; ns_find := Some "x"; ns_max_events := Some 3 |}
      stored_world = (Return tt, w')
    /\ length (console w') = 15%nat /\ requests w' = [] /\ stored w' = stored stored_world.
Proof.
  destruct (main_print_docs one_line first_hit plain_parser site
              {| ns_print_docs := true; ns_find := Some "x"; ns_max_events := Some 3 |}
              stored_world eq_refl)
    as (w' & E & Hc & _ & Hs & _ & Hr & _).
  exists w'. split; [exact E|]. rewrite Hc, Hr, Hs. split_and!; reflexivity.
Defined.

Lemma main_find_witness :
  exists w',
    main one_line first_hit plain_parser site
      {| ns_print_docs := false; ns_find := Some "x"; ns_max_events := None |}
      stored_world = (Return tt, w')
    /\ length (console w') = 7%nat /\ requests w' = [] /\ stored w' = stored stored_world.
Proof.
  destruct (main_find one_line first_hit plain_parser site
              {| ns_print_docs := false; ns_find := Some "x"; ns_max_events := None |}
              "x" stored_world eq_refl eq_refl)
    as (w' & E & Hc & _ & Hs & _ & Hr & _); [discriminate|].
  exists w'. split; [exact E|]. rewrite Hc, Hr, Hs. split_and!; reflexivity.
Defined.

Lemma print_after_build_witness :
  exists w1 w2 docs,
    _build_index plain_parser site (cap 1) empty_world = (Return tt, w1)
    /\ main one_line first_hit plain_parser site
         {| ns_print_docs := true; ns_find := None; ns_max_events := None |} w1
       = (Return tt, w2)
    /\ console w2 = console w1 ++ divided (Cli.doc_lines one_line <$> docs)
    /\ doc_url <$> docs ≡ₚ [_event_url "1"; _speaker_url "9"].
Proof.
  set (w1 := (_build_index plain_parser site (cap 1) empty_world).2).
  assert (R : _build_index plain_parser site (cap 1) empty_world = (Return tt, w1))
    by (vm_compute; reflexivity).
  destruct (print_after_build one_line first_hit plain_parser site (cap 1)
              {| ns_print_docs := true; ns_find := None; ns_max_events := None |}
              empty_world w1 R eq_refl)
    as (w2 & docs & E & Hc & Hp & _).
  exists w1, w2, docs. split_and!; [exact R|exact E|exact Hc|].
  etrans; [exact (fmap_Permutation doc_url _ _ Hp)|]. vm_compute. reflexivity.
Defined.

End CliFacts.
